(** * PVL grammar and lexer: a shallow embedding of [pvl/grammar.py] and
    [pvl/lexer.py], with the properties of the lexical layer.

    Python strings are sequences of Unicode code points; a character is a
    string of length one.  Code points are natural numbers ([N]), strings
    are lists of code points, and Python tuples of strings are lists of
    strings.  Fallible functions return a sum whose left injection is the
    exception raised. *)

From Stdlib Require Import Ascii String DecimalString.
From Stdlib Require Import List Bool Arith NArith ZArith Lia.
Import ListNotations.

(* ================================================================== *)
(** ** Python strings *)

Module Py.

Definition char := N.
Definition str := list char.

(** A literal: the code points of an ASCII/Latin-1 string constant. *)
Definition py (s : string) : str := map N_of_ascii (list_ascii_of_string s).
Arguments py s%_string.

Definition ord (c : char) : Z := Z.of_N c.

Fixpoint eqb (a b : str) : bool :=
  match a, b with
  | [], [] => true
  | x :: a', y :: b' => N.eqb x y && eqb a' b'
  | _, _ => false
  end.

(** [x in t] for a tuple (or set) [t] of strings. *)
Definition in_tuple (x : str) (t : list str) : bool := existsb (eqb x) t.

(** [s.startswith(p)] for a single prefix. *)
Fixpoint prefixb (p s : str) : bool :=
  match p, s with
  | [], _ => true
  | x :: p', y :: s' => N.eqb x y && prefixb p' s'
  | _ :: _, [] => false
  end.

(** [s.startswith(prefixes, start)] with a tuple of prefixes and a
    non-negative start: false when [start] is past the end. *)
Definition startswith (s : str) (prefixes : list str) (start : nat) : bool :=
  if length s <? start then false
  else existsb (fun p => prefixb p (skipn start s)) prefixes.

(** [s.endswith(suffixes)] with a tuple of suffixes. *)
Definition endswith (s : str) (suffixes : list str) : bool :=
  existsb (fun p => prefixb (rev p) (rev s)) suffixes.

(** Normalisation of a slice bound, as [str.count] and [str.rfind] do
    for their [end] argument: a negative bound counts from the end of
    the string, and the result is clipped to [0 .. len]. *)
Definition slice_bound (len : nat) (k : Z) : nat :=
  let k' := if (k <? 0)%Z then (k + Z.of_nat len)%Z else k in
  if (k' <? 0)%Z then 0 else Nat.min (Z.to_nat k') len.

(** [doc.count(c, 0, end)] for a one-character needle [c]. *)
Definition count (doc : str) (c : char) (end_ : Z) : Z :=
  Z.of_nat (length (filter (N.eqb c) (firstn (slice_bound (length doc) end_) doc))).

(** Highest index of [c] in [l], offset by [base]; [-1] when absent. *)
Fixpoint rfind_from (l : str) (c : char) (base : Z) : Z :=
  match l with
  | [] => (-1)%Z
  | x :: l' =>
      let r := rfind_from l' c (base + 1)%Z in
      if (0 <=? r)%Z then r else if N.eqb c x then base else (-1)%Z
  end.

(** [doc.rfind(c, 0, end)] for a one-character needle [c]. *)
Definition rfind (doc : str) (c : char) (end_ : Z) : Z :=
  rfind_from (firstn (slice_bound (length doc) end_) doc) c 0%Z.

(** [str(n)] for an integer. *)
Definition str_of_Z (z : Z) : str := py (NilZero.string_of_int (Z.to_int z)).

End Py.
Import Py.

(* ================================================================== *)
(** ** Regular expressions, as far as [grammar.py] uses them *)

Module Re.

(** The fragment of [re] syntax used by the numeric patterns: literal
    characters, character classes given by ranges, concatenation,
    alternation, [?], [+] and named groups. *)
Inductive re :=
| Empty                               (* matches the empty string *)
| Lit (c : char)                      (* one literal character *)
| Class (ranges : list (char * char)) (* [...]: union of ranges lo-hi *)
| Seq (a b : re)
| Alt (a b : re)
| Opt (a : re)                        (* a? *)
| Plus (a : re)                       (* a+ *)
| Group (name : string) (a : re).     (* (?P<name>a) *)
Arguments Group name%_string a.

Definition in_class (ranges : list (char * char)) (c : char) : bool :=
  existsb (fun r => N.leb (fst r) c && N.leb c (snd r)) ranges.

(** The loop of [a+], where [m] matches one [a]: match [a] once, then
    either stop or, when input was consumed, go round again.  [n]
    bounds the number of rounds and exceeds the length of the input. *)
Fixpoint plus_loop (m : str -> (str -> bool) -> bool) (k : str -> bool)
    (n : nat) (s : str) : bool :=
  match n with
  | O => false
  | S n' =>
      m s (fun s' => k s' || (Nat.ltb (length s') (length s) && plus_loop m k n' s'))
  end.

(** Continuation-passing matcher: [accept r s k] holds when some prefix
    of [s] is matched by [r] and the continuation [k] accepts the rest. *)
Fixpoint accept (r : re) (s : str) (k : str -> bool) : bool :=
  match r with
  | Empty => k s
  | Lit c => match s with x :: s' => N.eqb c x && k s' | [] => false end
  | Class rs => match s with x :: s' => in_class rs x && k s' | [] => false end
  | Seq a b => accept a s (fun s' => accept b s' k)
  | Alt a b => accept a s k || accept b s k
  | Opt a => accept a s k || k s
  | Plus a => plus_loop (accept a) k (S (length s)) s
  | Group _ a => accept a s k
  end.

(** The continuation that accepts at the end of the input only. *)
Definition at_end (rest : str) : bool :=
  match rest with [] => true | _ => false end.

(** [pattern.fullmatch(s)]: the whole string is matched. *)
Definition fullmatch (r : re) (s : str) : bool := accept r s at_end.

(** [pattern.match(s)]: a prefix of the string is matched. *)
Definition match_ (r : re) (s : str) : bool :=
  accept r s (fun _ => true).

End Re.
Import Re.

(* ================================================================== *)
(** ** Exceptions *)

(** [lexer.LexerError]: a [ValueError] with the attributes [msg], [doc],
    [pos], [lineno] and [colno]; [args] is the formatted message handed
    to [ValueError.__init__]. *)
Record LexerError := mkLexerError {
  args : str;
  msg : str;
  doc : str;
  pos : Z;
  lineno : Z;
  colno : Z
}.

(** The exceptions the two modules raise or let through. *)
Inductive exn :=
| Exception
| ValueError (m : str)
| NotImplementedError (m : str)
| TypeError (m : str)
| UnicodeError
| LexerError_ (e : LexerError).

(** [isinstance(e, ValueError)]: [UnicodeError] and [LexerError] are
    subclasses of [ValueError]. *)
Definition is_ValueError (e : exn) : bool :=
  match e with
  | ValueError _ | UnicodeError | LexerError_ _ => true
  | Exception | NotImplementedError _ | TypeError _ => false
  end.

(** [str(e)]. *)
Definition exn_str (e : exn) : str :=
  match e with
  | Exception | UnicodeError => []
  | ValueError m | NotImplementedError m | TypeError m => m
  | LexerError_ e => args e
  end.

(* ================================================================== *)
(** ** [pvl/grammar.py] *)

Definition chr (a : ascii) : char := N_of_ascii a.
Arguments chr a%_char.

Definition TAB : char := 9%N.
Definition LF : char := 10%N.
Definition VT : char := 11%N.
Definition FF : char := 12%N.
Definition CR : char := 13%N.

(** The class attributes of [grammar] that the lexer and the numeric
    classification read, and its one method. *)
Record Grammar := mkGrammar {
  spacing_characters : list str;
  format_effectors : list str;
  whitespace : list str;
  reserved_characters : list str;
  numeric_start_chars : list str;
  delimiters : list str;
  comments : list (str * str);
  nondecimal_pre_re : re;
  binary_re : re;
  octal_re : re;
  hex_re : re;
  nondecimal_re : option re;
  char_allowed : str -> exn + bool
}.

(** [_s = r'(?P<sign>[+-]?)'] *)
Definition _s : re :=
  Group "sign" (Opt (Class [(chr "+", chr "+"); (chr "-", chr "-")])).

(** [grammar.char_allowed] *)
Definition grammar_char_allowed (char : str) : exn + bool :=
  if negb (length char =? 1) then inl Exception
  else
    let o := ord (hd 0%N char) in
    if ((o >? 255) ||
        ((o >=? 0) && (o <=? 8)) ||
        (o =? 11) ||
        ((o >=? 14) && (o <=? 31)) ||
        ((o >=? 127) && (o <=? 159)))%Z
    then inr false
    else inr true.

(** The class [grammar] with its default attribute values. *)
Definition grammar : Grammar :=
  let spacing := [py " "; [TAB]] in
  let effectors := [[LF]; [CR]; [VT]; [FF]] in
  {| spacing_characters := spacing;
     format_effectors := effectors;
     whitespace := spacing ++ effectors;
     reserved_characters :=
       map py ["&"; "<"; ">"; "'"; "{"; "}"; ",";
               "["; "]"; "="; "!"; "#"; "("; ")";
               "%"; "+"]%string ++ [[34%N]] ++ map py [";"; "~"; "|"]%string;
     numeric_start_chars := map py ["+"; "-"]%string;
     delimiters := [py ";"];
     comments := [(py "/*", py "*/")];
     nondecimal_pre_re :=
       Seq _s (Seq (Group "radix" (Alt (Lit (chr "2"))
                                     (Alt (Lit (chr "8"))
                                          (Seq (Lit (chr "1")) (Lit (chr "6"))))))
                   (Lit (chr "#")));
     binary_re :=
       Seq _s (Seq (Group "radix" (Lit (chr "2")))
              (Seq (Lit (chr "#"))
              (Seq (Group "non_decimal" (Plus (Class [(chr "0", chr "0"); (chr "1", chr "1")])))
                   (Lit (chr "#")))));
     octal_re :=
       Seq _s (Seq (Group "radix" (Lit (chr "8")))
              (Seq (Lit (chr "#"))
              (Seq (Group "non_decimal" (Plus (Class [(chr "0", chr "7")])))
                   (Lit (chr "#")))));
     hex_re :=
       Seq _s (Seq (Group "radix" (Seq (Lit (chr "1")) (Lit (chr "6"))))
              (Seq (Lit (chr "#"))
              (Seq (Group "non_decimal"
                      (Plus (Class [(chr "0", chr "9"); (chr "|", chr "|");
                                    (chr "A", chr "F"); (chr "|", chr "|");
                                    (chr "a", chr "f")])))
                   (Lit (chr "#")))));
     nondecimal_re := None;
     char_allowed := grammar_char_allowed |}.

(** [char.encode(encoding='ascii')]: every code point must be below 128. *)
Definition encode_ascii (s : str) : exn + list N :=
  if forallb (fun c => (c <? 128)%N) s then inr s else inl UnicodeError.

(** [ODLgrammar.char_allowed] *)
Definition ODLgrammar_char_allowed (char : str) : exn + bool :=
  if negb (length char =? 1) then inl Exception
  else
    match encode_ascii char with
    | inr _ => inr true
    | inl UnicodeError => inr false
    | inl e => inl e
    end.

(** [[0-9|A-F|a-f]+], the digits of [nondecimal_re] in the subclasses. *)
Definition non_decimal_digits : re :=
  Group "non_decimal"
    (Plus (Class [(chr "0", chr "9"); (chr "|", chr "|");
                  (chr "A", chr "F"); (chr "|", chr "|");
                  (chr "a", chr "f")])).

(** [(?P<radix>[2-9]|1[0-6])] *)
Definition radix_2_16 : re :=
  Group "radix" (Alt (Class [(chr "2", chr "9")])
                     (Seq (Lit (chr "1")) (Class [(chr "0", chr "6")]))).

(** The class [ODLgrammar(grammar)]: the overridden attributes. *)
Definition ODLgrammar : Grammar :=
  let pre := Seq radix_2_16 (Seq (Lit (chr "#")) _s) in
  {| spacing_characters := spacing_characters grammar;
     format_effectors := format_effectors grammar;
     whitespace := whitespace grammar;
     reserved_characters := reserved_characters grammar;
     numeric_start_chars := numeric_start_chars grammar;
     delimiters := delimiters grammar;
     comments := comments grammar;
     nondecimal_pre_re := pre;
     binary_re := binary_re grammar;
     octal_re := octal_re grammar;
     hex_re := hex_re grammar;
     nondecimal_re := Some (Seq pre (Seq non_decimal_digits (Lit (chr "#"))));
     char_allowed := ODLgrammar_char_allowed |}.

(** The class [Omnigrammar(grammar)]: the overridden attributes. *)
Definition Omnigrammar : Grammar :=
  let _ss := Group "second_sign" (Opt (Class [(chr "+", chr "+"); (chr "-", chr "-")])) in
  let pre := Seq _s (Seq radix_2_16 (Seq (Lit (chr "#")) _ss)) in
  {| spacing_characters := spacing_characters grammar;
     format_effectors := format_effectors grammar;
     whitespace := whitespace grammar;
     reserved_characters := reserved_characters grammar;
     numeric_start_chars := numeric_start_chars grammar;
     delimiters := delimiters grammar;
     comments := [(py "/*", py "*/"); (py "#", [LF])];
     nondecimal_pre_re := pre;
     binary_re := binary_re grammar;
     octal_re := octal_re grammar;
     hex_re := hex_re grammar;
     nondecimal_re := Some (Seq pre (Seq non_decimal_digits (Lit (chr "#"))));
     char_allowed := grammar_char_allowed |}.

(* ================================================================== *)
(** ** Token classification *)

Module Token.

(** An optionally signed decimal integer or float: sign, digits, an
    optional fractional part and an optional exponent. *)
Definition decimal_re : re :=
  let digits := Plus (Class [(chr "0", chr "9")]) in
  let sign := Opt (Class [(chr "+", chr "+"); (chr "-", chr "-")]) in
  Seq sign
    (Seq digits
      (Seq (Opt (Seq (Lit (chr ".")) digits))
           (Opt (Seq (Class [(chr "e", chr "e"); (chr "E", chr "E")])
                     (Seq sign digits))))).

(** Modelled from the spec: [pvl/token.py] is not among the sources, so
    [Token(t, grammar=g).is_numeric()] follows the specification of the
    token classification: it recognises optionally signed decimal
    integers, decimal floats, and the non-decimal radix forms of the
    grammar's precompiled patterns; a string that matches none of them
    is simply not numeric, and no exception is raised.  A token compares
    equal to its text, so it is represented by that text. *)
Definition is_numeric (g : Grammar) (t : str) : bool :=
  fullmatch decimal_re t
  || fullmatch (binary_re g) t
  || fullmatch (octal_re g) t
  || fullmatch (hex_re g) t
  || match nondecimal_re g with
     | Some r => fullmatch r t
     | None => false
     end.

End Token.

(* ================================================================== *)
(** ** [pvl/lexer.py] *)

(** [LexerError.__init__(self, msg, doc, pos)] *)
Definition LexerError__init__ (msg doc : str) (pos : Z) : LexerError :=
  let lineno := (count doc LF pos + 1)%Z in
  let colno := (pos - rfind doc LF pos)%Z in
  let errmsg :=
    msg ++ py ": line " ++ str_of_Z lineno ++ py " column " ++ str_of_Z colno
        ++ py " (char " ++ str_of_Z pos ++ py ")" in
  {| args := errmsg; msg := msg; doc := doc; pos := pos;
     lineno := lineno; colno := colno |}.

(** [LexerError.__reduce__]: the arguments from which the class rebuilds
    the object. *)
Definition LexerError__reduce__ (e : LexerError) : str * str * Z :=
  (msg e, doc e, pos e).

(** Rebuilding an error from its reduced form, as unpickling does. *)
Definition LexerError_rebuild (r : str * str * Z) : LexerError :=
  let '(m, d, p) := r in LexerError__init__ m d p.

(** The scanning state threaded through the comment helpers:
    [(lexeme, in_comment, end_comment)]. *)
Definition lexstate : Type := str * bool * option str.

(** A Python [dict] from strings to strings, as an association list in
    which a key occurs at most once. *)
Definition dict := list (str * str).

Fixpoint dict_get (d : dict) (k : str) : option str :=
  match d with
  | [] => None
  | (k', v) :: d' => if eqb k k' then Some v else dict_get d' k
  end.

(** [d[k] = v] *)
Fixpoint dict_set (d : dict) (k v : str) : dict :=
  match d with
  | [] => [(k, v)]
  | (k', v') :: d' => if eqb k k' then (k, v) :: d' else (k', v') :: dict_set d' k v
  end.

(** [k in d] *)
Definition dict_mem (d : dict) (k : str) : bool :=
  match dict_get d k with Some _ => true | None => false end.

(** [x == y] where [y] may be [None]. *)
Definition eqb_opt (x : str) (y : option str) : bool :=
  match y with Some y' => eqb x y' | None => false end.

Definition lex_singlechar_comments (char lexeme : str) (in_comment : bool)
    (end_comment : option str) (comments : dict) : lexstate :=
  if in_comment then
    if eqb_opt char end_comment then (lexeme ++ char, false, None)
    else (lexeme ++ char, in_comment, end_comment)
  else
    match dict_get comments char with
    | Some close => (lexeme ++ char, true, Some close)
    | None => (lexeme, in_comment, end_comment)
    end.

Definition pair_eqb (p q : str * str) : bool :=
  eqb (fst p) (fst q) && eqb (snd p) (snd q).

Definition allowed_pairs : list (str * str) := [(py "/*", py "*/")].

Definition lex_multichar_comments (char : str) (prev_char next_char : option str)
    (lexeme : str) (in_comment : bool) (end_comment : option str)
    (comments : list (str * str)) : exn + lexstate :=
  if length comments =? 0 then
    inl (ValueError (py "The variable provided to comments is empty."))
  else if negb (forallb (fun p => existsb (pair_eqb p) allowed_pairs) comments) then
    inl (NotImplementedError
           (py "Can only handle these multicharacter comments: (('/*', '*/'),).  To handle others this class must be extended."))
  else if existsb (pair_eqb (py "/*", py "*/")) comments then
    if eqb char (py "*") then
      if eqb_opt (py "/") prev_char then inr (lexeme ++ py "/*", true, end_comment)
      else if eqb_opt (py "/") next_char then inr (lexeme ++ py "*/", false, None)
      else inr (lexeme ++ py "*", in_comment, end_comment)
    else if eqb char (py "/") then
      if negb (eqb_opt (py "*") prev_char) && negb (eqb_opt (py "*") next_char)
      then inr (lexeme ++ py "/", in_comment, end_comment)
      else inr (lexeme, in_comment, end_comment)
    else inr (lexeme, in_comment, end_comment)
  else inr (lexeme, in_comment, end_comment).

(** The dictionary built by [_prepare_comment_tuples]; the sets are lists
    used for membership only. *)
Record comment_info := mkCommentInfo {
  single_comments : dict;
  multi_chars : list str;
  chars : list str
}.

(** [set(p)]: the characters of a string, each a one-character string. *)
Definition set_of_str (p : str) : list str := map (fun c => [c]) p.

Fixpoint prepare_loop (comments : list (str * str)) (single : dict) (multi : list str)
  : dict * list str :=
  match comments with
  | [] => (single, multi)
  | p :: rest =>
      if length (fst p) =? 1
      then prepare_loop rest (dict_set single (fst p) (snd p)) multi
      else prepare_loop rest single (multi ++ set_of_str (fst p) ++ set_of_str (snd p))
  end.

Definition _prepare_comment_tuples (comments : list (str * str)) : comment_info :=
  let '(single, multi) := prepare_loop comments [] [] in
  {| single_comments := single;
     multi_chars := multi;
     chars := map fst single ++ multi |}.

Definition lex_comment (char : str) (prev_char next_char : option str)
    (lexeme : str) (in_comment : bool) (end_comment : option str)
    (comments : list (str * str)) (c_info : comment_info) : exn + lexstate :=
  if in_tuple char (multi_chars c_info) then
    lex_multichar_comments char prev_char next_char lexeme in_comment end_comment comments
  else
    inr (lex_singlechar_comments char lexeme in_comment end_comment
           (single_comments c_info)).

(** [_prev_char(s, idx)]; the lexer calls it with [0 <= idx < len(s)]. *)
Definition _prev_char (s : str) (idx : nat) : option str :=
  match idx with
  | O => None
  | S k => option_map (fun c => [c]) (nth_error s k)
  end.

(** [_next_char(s, idx)]: [None] when [idx + 1] is past the end. *)
Definition _next_char (s : str) (idx : nat) : option str :=
  option_map (fun c => [c]) (nth_error s (idx + 1)).

Definition lex_char (char : str) (prev_char next_char : option str)
    (lexeme : str) (in_comment : bool) (end_comment : option str)
    (g : Grammar) (c_info : comment_info) : exn + lexstate :=
  if in_comment || in_tuple char (chars c_info) then
    lex_comment char prev_char next_char lexeme in_comment end_comment
      (comments g) c_info
  else if negb (in_tuple char (whitespace g)) then
    inr (lexeme ++ char, in_comment, end_comment)
  else inr (lexeme, in_comment, end_comment).

(** *** The generator [lexer(s, g)]

    A generator object is the text, the grammar and a frame: the place
    where the body is suspended and the values of its local variables.
    [send], [next] and [throw] resume it and return what the caller
    observes together with the generator's new state. *)

Inductive location :=
| NotStarted          (* created; the body has not run yet *)
| AtToken             (* suspended at [t = yield(Token(lexeme, grammar=g))] *)
| AtNone (t : str)    (* suspended at [yield None], with [t] not [None] *)
| AtBack              (* suspended at [t = yield(t)] *)
| Finished.           (* returned or raised *)

Record frame := mkFrame {
  f_loc : location;
  f_idx : nat;                    (* [i], the index of the current character *)
  f_lexeme : str;
  f_in_comment : bool;
  f_end_comment : option str
}.

Record generator := mkGenerator {
  gi_s : str;
  gi_g : Grammar;
  gi_frame : frame
}.

(** What a caller of [next], [send] or [throw] observes: a yielded value
    ([None] or a string), [StopIteration], or another exception. *)
Inductive event :=
| Yielded (v : option str)
| StopIteration
| Raised (e : exn).

(** How the caller resumes the generator: [send(sent)], where [next()] is
    [send(None)], or [throw(e)]. *)
Inductive action :=
| Send (sent : option str)
| Throw (e : exn).

(** What one pass through the body of the [for] loop decides. *)
Inductive verdict :=
| Fail (e : exn)            (* [lex_char] raised [e] *)
| Emit (st : lexstate)      (* a [yield(Token(lexeme, grammar=g))] is reached *)
| Continue (st : lexstate). (* on to the next character *)

(** Calling [lexer(s, g)] creates the generator; nothing runs yet. *)
Definition lexer (s : str) (g : Grammar) : generator :=
  {| gi_s := s; gi_g := g;
     gi_frame := {| f_loc := NotStarted; f_idx := 0; f_lexeme := [];
                    f_in_comment := false; f_end_comment := None |} |}.

Section Generator.

(** [is_numeric g t] stands for [Token(t, grammar=g).is_numeric()]. *)
Variable is_numeric : Grammar -> str -> bool.

Section Body.

Variable s : str.
Variable g : Grammar.

Definition c_info : comment_info := _prepare_comment_tuples (comments g).

(** The body of [for i, char in enumerate(s)] for the character
    [char] at index [i], up to the point where it yields, continues
    or lets an exception of [lex_char] through. *)
Definition loop_body (char : str) (i : nat) (lexeme : str) (in_comment : bool)
    (end_comment : option str) : verdict :=
  let prev_char := _prev_char s i in
  let next_char := _next_char s i in
  match lex_char char prev_char next_char lexeme in_comment end_comment
          g c_info with
  | inl e => Fail e
  | inr (lexeme, in_comment, end_comment) =>
      if negb (eqb lexeme []) then
        match next_char with
        | None => Emit (lexeme, in_comment, end_comment)
        | Some next_char =>
            if in_comment || is_numeric g (char ++ next_char) then
              Continue (lexeme, in_comment, end_comment)
            else if in_tuple next_char (whitespace g)
                 || in_tuple next_char (reserved_characters g)
                 || startswith s (map fst (comments g)) (i + 1)
                 || endswith lexeme (map snd (comments g))
                 || in_tuple lexeme (reserved_characters g) then
              Emit (lexeme, in_comment, end_comment)
            else Continue (lexeme, in_comment, end_comment)
        end
      else Continue (lexeme, in_comment, end_comment)
  end.

(** The loop from index [i] on, where [todo] holds the characters
    [s[i:]] still to be enumerated, up to the next suspension, the
    end of the loop or an exception. *)
Fixpoint run (todo : str) (i : nat) (lexeme : str) (in_comment : bool)
    (end_comment : option str) : event * frame :=
  match todo with
  | [] => (StopIteration, mkFrame Finished i lexeme in_comment end_comment)
  | c :: todo' =>
      match loop_body [c] i lexeme in_comment end_comment with
      | Fail e => (Raised e, mkFrame Finished i lexeme in_comment end_comment)
      | Emit (lexeme, in_comment, end_comment) =>
          (Yielded (Some lexeme),
           mkFrame AtToken i lexeme in_comment end_comment)
      | Continue (lexeme, in_comment, end_comment) =>
          run todo' (S i) lexeme in_comment end_comment
      end
  end.

(** The tokens a consumer that only calls [next] receives from index
    [i] on: after each yield the lexeme is reset and the loop goes
    on with the next character. *)
Fixpoint scan (todo : str) (i : nat) (lexeme : str) (in_comment : bool)
    (end_comment : option str) : exn + list (option str) :=
  match todo with
  | [] => inr []
  | c :: todo' =>
      match loop_body [c] i lexeme in_comment end_comment with
      | Fail e => inl e
      | Emit (lexeme, in_comment, end_comment) =>
          match scan todo' (S i) [] in_comment end_comment with
          | inr l => inr (Some lexeme :: l)
          | inl e => inl e
          end
      | Continue (lexeme, in_comment, end_comment) =>
          scan todo' (S i) lexeme in_comment end_comment
      end
  end.

(** An exception [e] raised at a suspension point inside the [try]
    block: a [ValueError] becomes a [LexerError] at [i - len(lexeme)],
    anything else propagates. *)
Definition except (e : exn) (f : frame) : event * frame :=
  let f' := mkFrame Finished (f_idx f) (f_lexeme f) (f_in_comment f)
              (f_end_comment f) in
  if is_ValueError e then
    (Raised (LexerError_
               (LexerError__init__ (exn_str e) s
                  (Z.of_nat (f_idx f) - Z.of_nat (length (f_lexeme f))))),
     f')
  else (Raised e, f').

(** Resuming the body from the frame [f]. *)
Definition resume (a : action) (f : frame) : event * frame :=
  match f_loc f with
  | NotStarted =>
      match a with
      | Send None => run s 0 [] false None
      | Send (Some _) =>
          (Raised (TypeError
             (py "can't send non-None value to a just-started generator")), f)
      | Throw e =>
          (Raised e, mkFrame Finished (f_idx f) (f_lexeme f) (f_in_comment f)
                       (f_end_comment f))
      end
  | AtToken | AtBack =>
      (* [t] receives the value sent *)
      match a with
      | Send None =>
          (* the [while] loop is left, [lexeme = ''], next iteration *)
          run (skipn (S (f_idx f)) s) (S (f_idx f)) []
            (f_in_comment f) (f_end_comment f)
      | Send (Some t) =>
          (Yielded None,
           mkFrame (AtNone t) (f_idx f) (f_lexeme f) (f_in_comment f)
             (f_end_comment f))
      | Throw e => except e f
      end
  | AtNone t =>
      (* the value of [yield None] is dropped; then [t = yield(t)] *)
      match a with
      | Send _ =>
          (Yielded (Some t),
           mkFrame AtBack (f_idx f) (f_lexeme f) (f_in_comment f)
             (f_end_comment f))
      | Throw e => except e f
      end
  | Finished =>
      match a with
      | Send _ => (StopIteration, f)
      | Throw e => (Raised e, f)
      end
  end.

End Body.

Definition step (a : action) (gen : generator) : event * generator :=
  let '(ev, f) := resume (gi_s gen) (gi_g gen) a (gi_frame gen) in
  (ev, mkGenerator (gi_s gen) (gi_g gen) f).

(** [gen.send(v)], [next(gen)] and [gen.throw(e)]. *)
Definition send (gen : generator) (v : option str) := step (Send v) gen.
Definition next (gen : generator) := step (Send None) gen.
Definition throw (gen : generator) (e : exn) := step (Throw e) gen.

(** [list(gen)]: [next] until [StopIteration].  Every call of [next]
    that yields moves the index forward, so [fuel] calls suffice when
    [fuel] exceeds the length of the text; [None] means the fuel ran
    out. *)
Fixpoint to_list (fuel : nat) (gen : generator) : option (exn + list (option str)) :=
  match fuel with
  | O => None
  | S fuel' =>
      match next gen with
      | (Yielded v, gen') =>
          match to_list fuel' gen' with
          | Some (inr l) => Some (inr (v :: l))
          | other => other
          end
      | (StopIteration, _) => Some (inr [])
      | (Raised e, _) => Some (inl e)
      end
  end.

(** [list(lexer(s, g))] *)
Definition tokens (s : str) (g : Grammar) : option (exn + list (option str)) :=
  to_list (S (length s)) (lexer s g).

End Generator.

(* ================================================================== *)
(** ** Definitions used to state the properties *)

(** [g.comments = c] on a grammar instance, as the tests configure a
    custom comment table. *)
Definition set_comments (g : Grammar) (c : list (str * str)) : Grammar :=
  {| spacing_characters := spacing_characters g;
     format_effectors := format_effectors g;
     whitespace := whitespace g;
     reserved_characters := reserved_characters g;
     numeric_start_chars := numeric_start_chars g;
     delimiters := delimiters g;
     comments := c;
     nondecimal_pre_re := nondecimal_pre_re g;
     binary_re := binary_re g;
     octal_re := octal_re g;
     hex_re := hex_re g;
     nondecimal_re := nondecimal_re g;
     char_allowed := char_allowed g |}.

(** The code points the specification excludes from the base character
    set: 0x00-0x08, 0x0B, 0x0E-0x1F, 0x7F-0x9F and everything above 0xFF. *)
Definition base_excluded (c : char) : bool :=
  ((c <=? 8) || (c =? 11) || ((14 <=? c) && (c <=? 31))
   || ((127 <=? c) && (c <=? 159)) || (255 <? c))%N.

(** The ASCII control characters among them. *)
Definition ascii_control (c : char) : bool :=
  ((c <=? 8) || (c =? 11) || ((14 <=? c) && (c <=? 31)) || (c =? 127))%N.

(** Splitting a text on whitespace: the maximal runs of characters that
    are not whitespace, in order.  [word] is the run being collected. *)
Fixpoint split_on_whitespace (ws : list str) (word s : str) : list str :=
  match s with
  | [] => match word with [] => [] | _ => [word] end
  | c :: s' =>
      if in_tuple [c] ws then
        match word with
        | [] => split_on_whitespace ws [] s'
        | _ => word :: split_on_whitespace ws [] s'
        end
      else split_on_whitespace ws (word ++ [c]) s'
  end.

(** The number of newline characters at the indices below [p]. *)
Definition newlines_before (doc : str) (p : nat) : Z :=
  Z.of_nat (length (filter (fun j => match nth_error doc j with
                                     | Some c => N.eqb c LF
                                     | None => false
                                     end) (seq 0 p))).

(** [j] is the index of the last newline below [p]; [-1] stands for
    no newline below [p]. *)
Definition preceding_newline (doc : str) (p : nat) (j : Z) : Prop :=
  (forall k, (j < Z.of_nat k < Z.of_nat p)%Z -> nth_error doc k <> Some LF)
  /\ (j = (-1)%Z \/ ((0 <= j < Z.of_nat p)%Z /\ nth_error doc (Z.to_nat j) = Some LF)).

(** The strings of the form [[sign]radix#digits#]: an optional [+] or
    [-], the radix, and one or more characters satisfying [digit] between
    two octothorpes. *)
Definition radix_form (radix : str) (digit : char -> bool) (t : str) : Prop :=
  exists sign digits,
    (sign = [] \/ sign = py "+" \/ sign = py "-")
    /\ digits <> []
    /\ forallb digit digits = true
    /\ t = sign ++ radix ++ py "#" ++ digits ++ py "#".

Definition binary_digit (c : char) : bool :=
  ((c =? chr "0") || (c =? chr "1"))%N.

Definition octal_digit (c : char) : bool :=
  ((chr "0" <=? c) && (c <=? chr "7"))%N.

Definition hex_digit (c : char) : bool :=
  (((chr "0" <=? c) && (c <=? chr "9"))
   || ((chr "A" <=? c) && (c <=? chr "F"))
   || ((chr "a" <=? c) && (c <=? chr "f")))%N.

(** What [list] makes of a generator whose body, resumed by [next], has
    just produced the event and frame [r]: the yielded value followed by
    the values of at most [n] further calls of [next]. *)
Definition drain_after (is_numeric : Grammar -> str -> bool) (s : str) (g : Grammar)
    (n : nat) (r : event * frame) : option (exn + list (option str)) :=
  match r with
  | (Yielded v, f) =>
      match to_list is_numeric n (mkGenerator s g f) with
      | Some (inr l) => Some (inr (v :: l))
      | other => other
      end
  | (StopIteration, _) => Some (inr [])
  | (Raised e, _) => Some (inl e)
  end.

(** The events a consumer observes when it resumes a generator with the
    given actions, one after the other. *)
Fixpoint play (is_numeric : Grammar -> str -> bool) (gen : generator)
    (actions : list action) : list event :=
  match actions with
  | [] => []
  | a :: rest =>
      let '(ev, gen') := step is_numeric a gen in
      ev :: play is_numeric gen' rest
  end.

(** Does the character [c] occur in one of the strings of [l]? *)
Definition occurs (c : char) (l : list str) : bool :=
  existsb (existsb (N.eqb c)) l.

(** The shape of the three radix patterns of the base grammar:
    [_s], the radix [R] in a group, [#], one or more characters of the
    class [rs] in a group, [#]. *)
Definition radix_pattern (R : re) (rs : list (char * char)) (n1 n2 : string) : re :=
  Seq _s (Seq (Group n1 R)
         (Seq (Lit (chr "#"))
         (Seq (Group n2 (Plus (Class rs)))
              (Lit (chr "#"))))).

(** The matcher of such a pattern after the optional sign. *)
Definition radix_body (R : re) (rs : list (char * char)) (t : str) : bool :=
  accept R t (fun s1 => accept (Lit (chr "#")) s1
               (fun s2 => accept (Plus (Class rs)) s2
                  (fun s3 => accept (Lit (chr "#")) s3 at_end))).

(** The grammar of the tests with a custom comment table. *)
Definition custom : Grammar :=
  set_comments grammar [(py "/*", py "*/"); (py "#", [LF])].

(** Does [ok] hold of every two neighbouring characters of [s]? *)
Fixpoint adjacent (ok : char -> char -> bool) (s : str) : bool :=
  match s with
  | c :: (n :: _) as rest => ok c n && adjacent ok rest
  | _ => true
  end.

(** An optional sign: the empty string, [+] or [-]. *)
Definition is_sign (sign : str) : Prop :=
  sign = [] \/ sign = py "+" \/ sign = py "-".

(** A radix from 2 to 16 as [[2-9]|1[0-6]] writes it: one character from
    [2] to [9], or [1] followed by a character from [0] to [6]. *)
Definition is_radix (radix : str) : Prop :=
  (exists d, (chr "2" <= d <= chr "9")%N /\ radix = [d])
  \/ (exists d, (chr "0" <= d <= chr "6")%N /\ radix = [chr "1"; d]).

(** The characters of the class [[0-9|A-F|a-f]]. *)
Definition hex_class (c : char) : bool := hex_digit c || (c =? chr "|")%N.

(** The strings [[sign1]radix#[sign2]digits#] with a radix from 2 to 16
    and one or more characters of [[0-9|A-F|a-f]]. *)
Definition signed_radix_form (sign1 sign2 : str) (t : str) : Prop :=
  exists radix digits,
    is_radix radix /\ digits <> [] /\ forallb hex_class digits = true
    /\ t = sign1 ++ radix ++ py "#" ++ sign2 ++ digits ++ py "#".

(** [word] in front of [l], unless it is empty. *)
Definition emit (word : str) (l : list str) : list str :=
  match word with [] => l | _ => word :: l end.

(** A reference tokenizer for texts without comments: whitespace ends
    the word being collected, and a reserved character ends it and is a
    token of its own. *)
Fixpoint split_tokens (ws res : list str) (word s : str) : list str :=
  match s with
  | [] => emit word []
  | c :: s' =>
      if in_tuple [c] ws then emit word (split_tokens ws res [] s')
      else if in_tuple [c] res then emit word ([c] :: split_tokens ws res [] s')
      else split_tokens ws res (word ++ [c]) s'
  end.

(** The generator after the consumer has resumed it with the given
    actions. *)
Fixpoint after (is_numeric : Grammar -> str -> bool) (gen : generator)
    (actions : list action) : generator :=
  match actions with
  | [] => gen
  | a :: rest => after is_numeric (snd (step is_numeric a gen)) rest
  end.

(** Pushing each value of [vs] back and pulling it again. *)
Definition push_backs (vs : list str) : list action :=
  flat_map (fun v => [Send (Some v); Send None]) vs.

(** [c] is a character of the opener or of the closer of a pair of the
    comment table whose opener is not exactly one character: the pairs
    that [_prepare_comment_tuples] does not take for single-character
    ones. *)
Definition multi_delimiter_char (comments : list (str * str)) (c : char) : Prop :=
  exists p, In p comments /\ length (fst p) <> 1 /\ (In c (fst p) \/ In c (snd p)).

(** Does [d] occur in [s] as a substring? *)
Fixpoint substring (d s : str) : bool :=
  prefixb d s || match s with [] => false | _ :: s' => substring d s' end.

(* ================================================================== *)
(** ** Basic facts about strings *)

Lemma eqb_eq (a b : str) : eqb a b = true <-> a = b.
Proof.
  revert b; induction a as [|x a IH]; intros [|y b]; simpl; split;
    try congruence; try discriminate.
  - intros H. apply andb_prop in H as [H1 H2].
    apply N.eqb_eq in H1. apply IH in H2. congruence.
  - intros H. injection H as -> ->. rewrite N.eqb_refl. simpl. now apply IH.
Qed.

Lemma eqb_refl (a : str) : eqb a a = true.
Proof. now apply eqb_eq. Qed.

Lemma eqb_neq (a b : str) : eqb a b = false <-> a <> b.
Proof.
  split.
  - intros H E. apply eqb_eq in E. congruence.
  - intros H. destruct (eqb a b) eqn:E; [apply eqb_eq in E; contradiction | reflexivity].
Qed.

Lemma in_tuple_In (x : str) (t : list str) : in_tuple x t = true <-> In x t.
Proof.
  unfold in_tuple. rewrite existsb_exists. split.
  - intros [y [Hy E]]. apply eqb_eq in E. now subst.
  - intros H. exists x. split; [assumption | apply eqb_refl].
Qed.

Lemma eqb_nil_app (l : str) (c : char) : eqb (l ++ [c]) [] = false.
Proof. destruct l; reflexivity. Qed.

(* ================================================================== *)
(** ** The character sets of the grammars *)

Ltac split_comparisons :=
  repeat match goal with
    | |- context [(?a <=? ?b)%N] => destruct (N.leb_spec a b)
    | |- context [(?a <? ?b)%N] => destruct (N.ltb_spec a b)
    | |- context [(?a =? ?b)%N] => destruct (N.eqb_spec a b)
    | |- context [(?a <=? ?b)%Z] => destruct (Z.leb_spec a b)
    | |- context [(?a >=? ?b)%Z] => rewrite (Z.geb_leb a b)
    | |- context [(?a >? ?b)%Z] => rewrite (Z.gtb_ltb a b)
    | |- context [(?a <? ?b)%Z] => destruct (Z.ltb_spec a b)
    | |- context [(?a =? ?b)%Z] => destruct (Z.eqb_spec a b)
    end.

Lemma ODL_char_allowed_ascii (c : char) :
  char_allowed ODLgrammar [c] = inr (c <=? 127)%N.
Proof.
  simpl. unfold ODLgrammar_char_allowed, encode_ascii. simpl.
  split_comparisons; simpl; try reflexivity; lia.
Qed.

Lemma base_char_allowed_ranges (c : char) :
  char_allowed grammar [c] = inr (negb (base_excluded c)).
Proof.
  simpl. unfold grammar_char_allowed, base_excluded, ord. simpl.
  split_comparisons; simpl; try reflexivity; lia.
Qed.

(** C5, as the code has it: [ODLgrammar.char_allowed] accepts exactly the
    code points up to 127 and [grammar.char_allowed] exactly the code
    points up to 0xFF outside 0x00-0x08, 0x0B, 0x0E-0x1F and 0x7F-0x9F.
    The ODL set is not included in the base set: the characters that ODL
    accepts and the base grammar rejects are exactly the ASCII control
    characters 0x00-0x08, 0x0B, 0x0E-0x1F and 0x7F; and every character
    above 127 is rejected by ODL. *)
Theorem C5_char_allowed_ODL_versus_base (c : char) :
  char_allowed ODLgrammar [c] = inr (c <=? 127)%N
  /\ char_allowed grammar [c] = inr (negb (base_excluded c))
  /\ ((char_allowed ODLgrammar [c] = inr true /\ char_allowed grammar [c] = inr false)
      <-> ascii_control c = true).
Proof.
  rewrite ODL_char_allowed_ascii, base_char_allowed_ranges.
  split; [reflexivity | split; [reflexivity |]].
  unfold base_excluded, ascii_control.
  split.
  - intros [H1 H2]. revert H1 H2.
    split_comparisons; simpl; intros; try reflexivity; try discriminate; try congruence; lia.
  - split_comparisons; simpl; intros; try discriminate; try (split; reflexivity); lia.
Qed.

(** C5, counterexample to the claim as stated: the NUL character is
    allowed by the ODL grammar and not by the base grammar, so the ODL
    character set is not a restriction of the base one. *)
Lemma C5_counterexample :
  ~ (forall c : char, char_allowed ODLgrammar [c] = inr true ->
                      char_allowed grammar [c] = inr true).
Proof.
  intros H. specialize (H 0%N eq_refl). discriminate H.
Qed.

(* ================================================================== *)
(** ** The radix patterns *)

Lemma plus_class_spec (rs : list (char * char)) (k : str -> bool) (n : nat) (s : str) :
  length s < n ->
  (plus_loop (accept (Class rs)) k n s = true <->
   exists d rest, d <> [] /\ s = d ++ rest
                  /\ forallb (in_class rs) d = true /\ k rest = true).
Proof.
  revert s. induction n as [|n IH]; intros s Hn; [lia|].
  destruct s as [|x s']; simpl.
  - split; [discriminate|].
    intros (d & rest & Hd & E & _). destruct d; [contradiction | discriminate].
  - simpl in Hn.
    replace (length s' <? S (length s')) with true
      by (symmetry; apply Nat.ltb_lt; lia).
    simpl. rewrite andb_true_iff, orb_true_iff, (IH s') by lia.
    split.
    + intros [Hx [Hk | (d & rest & Hd & E & Hall & Hk)]].
      * exists [x], s'. simpl. rewrite Hx. repeat split; congruence.
      * exists (x :: d), rest. simpl. rewrite Hx, Hall, E.
        repeat split; congruence.
    + intros (d & rest & Hd & E & Hall & Hk).
      destruct d as [|y d]; [contradiction|].
      simpl in E, Hall. injection E as -> ->.
      apply andb_prop in Hall as [Hy Hall]. split; [assumption|].
      destruct d as [|z d].
      * left. assumption.
      * right. exists (z :: d), rest. repeat split; try assumption. discriminate.
Qed.

Lemma sign_class_spec (x : char) :
  in_class [(chr "+", chr "+"); (chr "-", chr "-")] x = true
  <-> x = chr "+" \/ x = chr "-".
Proof.
  unfold in_class. simpl. rewrite !orb_true_iff, !andb_true_iff, !N.leb_le.
  unfold chr. simpl. lia.
Qed.

Lemma lit_spec (c : char) (s : str) (k : str -> bool) :
  accept (Lit c) s k = true <-> exists rest, s = [c] ++ rest /\ k rest = true.
Proof.
  destruct s as [|x s']; simpl.
  - split; [discriminate | intros (r & E & _); discriminate].
  - rewrite andb_true_iff, N.eqb_eq. split.
    + intros [-> H]. now exists s'.
    + intros (r & E & H). injection E as -> ->. now split.
Qed.

Lemma lit2_spec (c1 c2 : char) (s : str) (k : str -> bool) :
  accept (Seq (Lit c1) (Lit c2)) s k = true
  <-> exists rest, s = [c1; c2] ++ rest /\ k rest = true.
Proof.
  change (accept (Seq (Lit c1) (Lit c2)) s k)
    with (accept (Lit c1) s (fun s' => accept (Lit c2) s' k)).
  rewrite lit_spec. split.
  - intros (r & -> & H). apply lit_spec in H as (r' & -> & H). now exists r'.
  - intros (r & -> & H). exists (c2 :: r). split; [reflexivity|].
    apply lit_spec. now exists r.
Qed.

Lemma plus_class_accept (rs : list (char * char)) (s : str) (k : str -> bool) :
  accept (Plus (Class rs)) s k = true <->
  exists d rest, d <> [] /\ s = d ++ rest
                 /\ forallb (in_class rs) d = true /\ k rest = true.
Proof.
  change (accept (Plus (Class rs)) s k)
    with (plus_loop (accept (Class rs)) k (S (length s)) s).
  apply plus_class_spec. lia.
Qed.

Section RadixPattern.

Variable R : re.
Variable radix : str.
Variable rs : list (char * char).
Variables n1 n2 : string.

Hypothesis R_spec : forall s k,
  accept R s k = true <-> exists rest, s = radix ++ rest /\ k rest = true.

Lemma radix_body_spec (t : str) :
  radix_body R rs t = true <->
  exists digits, digits <> [] /\ forallb (in_class rs) digits = true
                 /\ t = radix ++ py "#" ++ digits ++ py "#".
Proof.
  unfold radix_body. rewrite R_spec. split.
  - intros (rest & -> & H).
    apply lit_spec in H as (r1 & -> & H).
    apply plus_class_accept in H as (d & r2 & Hd & -> & Hall & H).
    apply lit_spec in H as (r3 & -> & H).
    destruct r3; [|discriminate].
    exists d. repeat split; assumption.
  - intros (d & Hd & Hall & ->).
    exists (py "#" ++ d ++ py "#"). split; [reflexivity|].
    apply lit_spec. exists (d ++ py "#"). split; [reflexivity|].
    apply plus_class_accept.
    exists d, (py "#"). repeat split; assumption.
Qed.

Lemma radix_pattern_spec (t : str) :
  fullmatch (radix_pattern R rs n1 n2) t = true <-> radix_form radix (in_class rs) t.
Proof.
  unfold fullmatch, radix_pattern, radix_form.
  change (accept _ t _) with
    (match t with
     | x :: t' => in_class [(chr "+", chr "+"); (chr "-", chr "-")] x && radix_body R rs t'
     | [] => false
     end || radix_body R rs t).
  rewrite orb_true_iff. split.
  - intros [H | H].
    + destruct t as [|x t']; [discriminate|].
      apply andb_prop in H as [Hx H]. apply sign_class_spec in Hx.
      apply radix_body_spec in H as (d & Hd & Hall & ->).
      exists [x], d. repeat split; try assumption.
      destruct Hx as [-> | ->]; [right; left | right; right]; reflexivity.
    + apply radix_body_spec in H as (d & Hd & Hall & ->).
      exists [], d. repeat split; try assumption. now left.
  - intros (sign & d & Hs & Hd & Hall & ->).
    assert (Hb : radix_body R rs (radix ++ py "#" ++ d ++ py "#") = true)
      by (apply radix_body_spec; exists d; repeat split; assumption).
    destruct Hs as [-> | [-> | ->]].
    + right. exact Hb.
    + left. simpl. exact Hb.
    + left. simpl. exact Hb.
Qed.

End RadixPattern.

Lemma radix_form_ext (radix : str) (d1 d2 : char -> bool) (t : str) :
  (forall c, d1 c = d2 c) -> radix_form radix d1 t <-> radix_form radix d2 t.
Proof.
  intros E. unfold radix_form.
  split; intros (sg & ds & Hs & Hd & Hall & ->); exists sg, ds;
    repeat split; try assumption;
    rewrite forallb_forall in *; intros c Hc; specialize (Hall c Hc);
    congruence.
Qed.

(** [binary_re] and [octal_re] match exactly the strings
    [[sign]2#digits#] over [0-1] and [[sign]8#digits#] over [0-7]. *)
Lemma binary_octal_re_spec (t : str) :
  (fullmatch (binary_re grammar) t = true <-> radix_form (py "2") binary_digit t)
  /\ (fullmatch (octal_re grammar) t = true <-> radix_form (py "8") octal_digit t).
Proof.
  split.
  - etransitivity; [apply radix_pattern_spec with (radix := py "2"); intros; apply lit_spec|].
    apply radix_form_ext. intros c. unfold in_class, binary_digit, chr. simpl.
    split_comparisons; simpl; try reflexivity; lia.
  - etransitivity; [apply radix_pattern_spec with (radix := py "8"); intros; apply lit_spec|].
    apply radix_form_ext. intros c. unfold in_class, octal_digit, chr. simpl.
    split_comparisons; simpl; try reflexivity; lia.
Qed.

(** [hex_re] matches exactly the strings [[sign]16#digits#] whose digits
    are hexadecimal digits or vertical bars: the character class
    [[0-9|A-F|a-f]] contains the bar. *)
Lemma hex_re_spec (t : str) :
  fullmatch (hex_re grammar) t = true
  <-> radix_form (py "16") (fun c => hex_digit c || (c =? chr "|")%N) t.
Proof.
  etransitivity; [apply radix_pattern_spec with (radix := py "16"); intros; apply lit2_spec|].
  apply radix_form_ext. intros c. unfold in_class, hex_digit, chr. simpl.
  split_comparisons; simpl; try reflexivity; lia.
Qed.

(** C6, the code at the failing input: [hex_re] matches [16#|#] and
    [-16#A|f#], whose digits contain a vertical bar, which is no
    hexadecimal digit; so the claim that no string with another character
    between the octothorpes matches does not hold of the code. *)
Theorem C6_hex_re_accepts_bar :
  fullmatch (hex_re grammar) (py "16#|#") = true
  /\ match_ (hex_re grammar) (py "16#|#") = true
  /\ fullmatch (hex_re grammar) (py "-16#A|f#") = true
  /\ ~ radix_form (py "16") hex_digit (py "16#|#").
Proof.
  repeat split; try reflexivity.
  intros (sg & ds & Hs & Hd & Hall & E).
  assert (In (chr "|") ds).
  { destruct Hs as [-> | [-> | ->]]; try discriminate E.
    simpl in E. injection E as E.
    destruct ds as [|d ds]; [contradiction|].
    injection E as <- E. now left. }
  rewrite forallb_forall in Hall. specialize (Hall _ H). discriminate Hall.
Qed.

(* ================================================================== *)
(** ** The generator and the list of tokens *)

Lemma skipn_cons_S {A} (l : list A) (i : nat) (x : A) (l' : list A) :
  skipn i l = x :: l' -> skipn (S i) l = l'.
Proof.
  revert l. induction i as [|i IH]; intros l H.
  - simpl in H. subst l. reflexivity.
  - destruct l as [|y l]; [discriminate|]. simpl in H. apply IH in H. exact H.
Qed.

Lemma skipn_cons_nth {A} (l : list A) (i : nat) (x : A) (l' : list A) :
  skipn i l = x :: l' -> nth_error l i = Some x.
Proof.
  revert l. induction i as [|i IH]; intros l H.
  - simpl in H. subst l. reflexivity.
  - destruct l as [|y l]; [discriminate|]. simpl in H. now apply IH.
Qed.

Lemma skipn_nil_nth {A} (l : list A) (i : nat) :
  skipn i l = [] -> nth_error l i = None.
Proof.
  revert l. induction i as [|i IH]; intros l H.
  - simpl in H. subst l. reflexivity.
  - destruct l as [|y l]; [reflexivity|]. simpl in H. now apply IH.
Qed.

(** While [todo] is [s[i:]], the next character is the head of the rest
    of [todo]. *)
Lemma next_char_todo (s : str) (i : nat) (c : char) (todo : str) :
  skipn i s = c :: todo ->
  _next_char s i = match todo with [] => None | n :: _ => Some [n] end.
Proof.
  intros H. unfold _next_char. rewrite Nat.add_1_r.
  apply skipn_cons_S in H.
  destruct todo as [|n todo'].
  - now rewrite (skipn_nil_nth _ _ H).
  - now rewrite (skipn_cons_nth _ _ _ _ H).
Qed.

Section GeneratorFacts.

Variable is_numeric : Grammar -> str -> bool.
Variable s : str.
Variable g : Grammar.

Lemma to_list_S (n : nat) (f : frame) :
  to_list is_numeric (S n) (mkGenerator s g f)
  = drain_after is_numeric s g n (resume is_numeric s g (Send None) f).
Proof.
  simpl. unfold next, step. simpl.
  destruct (resume is_numeric s g (Send None) f) as [[v| |e] f']; reflexivity.
Qed.

(** Draining the generator by [next] gives the tokens of [scan]; the
    fuel suffices as soon as it is at least the number of characters
    still to be enumerated. *)
Lemma drain_run (todo : str) :
  forall (i : nat) (lexeme : str) (ic : bool) (ec : option str) (n : nat),
    skipn i s = todo -> length todo <= n ->
    drain_after is_numeric s g n (run is_numeric s g todo i lexeme ic ec)
    = Some (scan is_numeric s g todo i lexeme ic ec).
Proof.
  induction todo as [|c todo IH]; intros i lexeme ic ec n Hs Hn.
  - reflexivity.
  - simpl in Hn. simpl.
    destruct (loop_body is_numeric s g [c] i lexeme ic ec)
      as [e | [[l ic'] ec'] | [[l ic'] ec']].
    + reflexivity.
    + destruct n as [|n]; [lia|].
      unfold drain_after. rewrite to_list_S.
      unfold resume. cbn [f_loc f_idx f_lexeme f_in_comment f_end_comment].
      rewrite (skipn_cons_S _ _ _ _ Hs).
      rewrite (IH (S i) [] ic' ec' n (skipn_cons_S _ _ _ _ Hs)) by lia.
      destruct (scan is_numeric s g todo (S i) [] ic' ec'); reflexivity.
    + apply IH; [exact (skipn_cons_S _ _ _ _ Hs) | lia].
Qed.

(** [list(lexer(s, g))] never runs out of fuel, and is the result of
    [scan] on the whole text. *)
Lemma tokens_scan :
  tokens is_numeric s g = Some (scan is_numeric s g s 0 [] false None).
Proof.
  unfold tokens, lexer. rewrite to_list_S.
  unfold resume. simpl f_loc. cbv iota.
  apply drain_run; [reflexivity | lia].
Qed.

(** A pass through the loop body that reaches a yield carries a
    non-empty lexeme. *)
Lemma loop_body_emit (char : str) (i : nat) (lexeme : str) (ic : bool)
    (ec : option str) (l : str) (ic' : bool) (ec' : option str) :
  loop_body is_numeric s g char i lexeme ic ec = Emit (l, ic', ec') -> l <> [].
Proof.
  unfold loop_body.
  destruct (lex_char _ _ _ _ _ _ _ _) as [e | [[l0 ic0] ec0]]; [discriminate|].
  destruct (eqb l0 []) eqn:E; simpl; [discriminate|].
  apply eqb_neq in E.
  destruct (_next_char s i).
  - destruct (ic0 || is_numeric g (char ++ s0)); [discriminate|].
    match goal with |- (if ?b then _ else _) = _ -> _ => destruct b end;
      [|discriminate].
    intros H. injection H as <- _ _. exact E.
  - intros H. injection H as <- _ _. exact E.
Qed.

Lemma run_yield (todo : str) :
  forall (i : nat) (lexeme : str) (ic : bool) (ec : option str)
         (v : option str) (f : frame),
    run is_numeric s g todo i lexeme ic ec = (Yielded v, f) ->
    exists tok, v = Some tok /\ tok <> [] /\ f_loc f = AtToken /\ f_lexeme f = tok.
Proof.
  induction todo as [|c todo IH]; intros i lexeme ic ec v f H; simpl in H.
  - discriminate.
  - destruct (loop_body is_numeric s g [c] i lexeme ic ec)
      as [e | [[l ic'] ec'] | [[l ic'] ec']] eqn:E.
    + discriminate.
    + injection H as <- <-. exists l.
      repeat split. exact (loop_body_emit _ _ _ _ _ _ _ _ E).
    + exact (IH _ _ _ _ _ _ H).
Qed.

End GeneratorFacts.

(* ================================================================== *)
(** ** Tokens are never empty *)

Lemma scan_nonempty (is_numeric : Grammar -> str -> bool) (s : str) (g : Grammar)
    (todo : str) :
  forall (i : nat) (lexeme : str) (ic : bool) (ec : option str) (l : list (option str)),
    scan is_numeric s g todo i lexeme ic ec = inr l ->
    Forall (fun v => exists tok, v = Some tok /\ tok <> []) l.
Proof.
  induction todo as [|c todo IH]; intros i lexeme ic ec l H; simpl in H.
  - injection H as <-. constructor.
  - destruct (loop_body is_numeric s g [c] i lexeme ic ec)
      as [e | [[l0 ic'] ec'] | [[l0 ic'] ec']] eqn:E.
    + discriminate.
    + destruct (scan is_numeric s g todo (S i) [] ic' ec') as [e | l'] eqn:E';
        [discriminate|].
      injection H as <-. constructor.
      * exists l0. split; [reflexivity | eapply loop_body_emit; eassumption].
      * eapply IH; eassumption.
    + eapply IH; eassumption.
Qed.

(** C10: whenever resuming the generator, in whatever way and from
    whatever state, ends at the statement that yields a token, the value
    yielded is a non-empty string; hence every element of
    [list(lexer(s, g))] is a non-empty string, for every text, grammar
    and numeric classification. *)
Theorem C10_tokens_are_nonempty :
  (forall (is_numeric : Grammar -> str -> bool) (a : action)
          (gen gen' : generator) (v : option str),
      step is_numeric a gen = (Yielded v, gen') ->
      f_loc (gi_frame gen') = AtToken ->
      exists tok, v = Some tok /\ tok <> [] /\ f_lexeme (gi_frame gen') = tok)
  /\ (forall (is_numeric : Grammar -> str -> bool) (s : str) (g : Grammar)
             (l : list (option str)),
        tokens is_numeric s g = Some (inr l) ->
        Forall (fun v => exists tok, v = Some tok /\ tok <> []) l).
Proof.
  split.
  - intros is_numeric a [s g f] gen' v H Hloc.
    unfold step in H. simpl in H.
    destruct (resume is_numeric s g a f) as [ev f'] eqn:R.
    injection H as -> <-. simpl in Hloc. simpl.
    unfold resume in R.
    destruct (f_loc f) eqn:L.
    + destruct a as [[t|]|e].
      * discriminate.
      * apply run_yield in R as (tok & -> & Hne & _ & Hl).
        exists tok. auto.
      * discriminate.
    + destruct a as [[t|]|e].
      * injection R as _ <-. discriminate.
      * apply run_yield in R as (tok & -> & Hne & _ & Hl).
        exists tok. auto.
      * unfold except in R. destruct (is_ValueError e); discriminate.
    + destruct a as [sent|e].
      * injection R as _ <-. discriminate.
      * unfold except in R. destruct (is_ValueError e); discriminate.
    + destruct a as [[t|]|e].
      * injection R as _ <-. discriminate.
      * apply run_yield in R as (tok & -> & Hne & _ & Hl).
        exists tok. auto.
      * unfold except in R. destruct (is_ValueError e); discriminate.
    + destruct a; discriminate.
  - intros is_numeric s g l H. rewrite tokens_scan in H. injection H as H.
    eapply scan_nonempty; eassumption.
Qed.

(** C10 at a concrete input: the first [next] on the lexer of ["Te=st"]
    yields the non-empty token ["Te"]. *)
Lemma C10_witness :
  exists tok, Some (py "Te") = Some tok /\ tok <> []
              /\ f_lexeme (gi_frame (snd (next Token.is_numeric (lexer (py "Te=st") grammar)))) = tok.
Proof.
  apply (proj1 C10_tokens_are_nonempty Token.is_numeric (Send None)
           (lexer (py "Te=st") grammar)
           (snd (next Token.is_numeric (lexer (py "Te=st") grammar)))
           (Some (py "Te"))).
  - vm_compute. reflexivity.
  - vm_compute. reflexivity.
Defined.

(* ================================================================== *)
(** ** Boundary decisions of the loop body *)

Section Boundary.

Variable is_numeric : Grammar -> str -> bool.
Variable s : str.
Variable g : Grammar.

(** With a next character whose pair with the current one is numeric,
    the loop body never reaches a yield. *)
Lemma loop_body_numeric (ch : str) (i : nat) (lexeme : str) (ic : bool)
    (ec : option str) (st : lexstate) (n : str) :
  lex_char ch (_prev_char s i) (_next_char s i) lexeme ic ec g (c_info g) = inr st ->
  _next_char s i = Some n ->
  is_numeric g (ch ++ n) = true ->
  loop_body is_numeric s g ch i lexeme ic ec = Continue st.
Proof.
  intros Hlex Hnext Hnum. unfold loop_body. rewrite Hlex, Hnext.
  destruct st as [[l ic'] ec']. rewrite Hnum, orb_true_r.
  destruct (negb (eqb l [])); reflexivity.
Qed.

(** Outside a comment and without a numeric pair, a lexeme that is a
    reserved character is yielded. *)
Lemma loop_body_reserved (ch : str) (i : nat) (lexeme : str) (ic : bool)
    (ec : option str) (x : char) (ec' : option str) :
  lex_char ch (_prev_char s i) (_next_char s i) lexeme ic ec g (c_info g)
    = inr ([x], false, ec') ->
  in_tuple [x] (reserved_characters g) = true ->
  (forall n, _next_char s i = Some n -> is_numeric g (ch ++ n) = false) ->
  loop_body is_numeric s g ch i lexeme ic ec = Emit ([x], false, ec').
Proof.
  intros Hlex Hres Hnum. unfold loop_body. rewrite Hlex. simpl.
  destruct (_next_char s i) as [n|]; [|reflexivity].
  rewrite (Hnum n eq_refl), Hres, !orb_true_r. reflexivity.
Qed.

End Boundary.

(** In the base grammar a sign is neither whitespace nor a comment
    character: outside a comment [lex_char] appends it to the lexeme. *)
Lemma lex_char_sign (sign : char) (prev next : option str) (lexeme : str)
    (ec : option str) :
  sign = chr "+" \/ sign = chr "-" ->
  lex_char [sign] prev next lexeme false ec grammar (c_info grammar)
  = inr (lexeme ++ [sign], false, ec).
Proof. intros [-> | ->]; reflexivity. Qed.

(** A sign followed by a decimal digit is numeric, whatever the grammar. *)
Lemma is_numeric_sign_digit (g : Grammar) (sign d : char) :
  sign = chr "+" \/ sign = chr "-" ->
  (chr "0" <= d <= chr "9")%N ->
  Token.is_numeric g [sign; d] = true.
Proof.
  intros Hs [Hlo Hhi]. unfold Token.is_numeric.
  assert (E : fullmatch Token.decimal_re [sign; d] = true).
  { unfold fullmatch, Token.decimal_re.
    cbn [accept plus_loop length Nat.ltb Nat.leb].
    unfold in_class. cbn [existsb fst snd].
    apply N.leb_le in Hlo, Hhi. rewrite Hlo, Hhi.
    destruct Hs as [-> | ->]; reflexivity. }
  rewrite E. reflexivity.
Qed.

Lemma lex_Te_st :
  tokens Token.is_numeric (py "Te=st") grammar
  = Some (inr [Some (py "Te"); Some (py "="); Some (py "st")]).
Proof. vm_compute. reflexivity. Qed.

Lemma lex_Number_79 :
  tokens Token.is_numeric (py "Number: +79") grammar
  = Some (inr [Some (py "Number:"); Some (py "+79")]).
Proof. vm_compute. reflexivity. Qed.

(** C1: at any character of any text, when the lexeme after [lex_char]
    is a single reserved character of the grammar, the scan is outside a
    comment, and the current and next character do not form a numeric
    pair, the loop yields exactly that one-character lexeme, whatever the
    neighbouring characters are; and lexing ["Te=st"] with the base
    grammar gives the tokens ["Te"], ["="], ["st"]. *)
Theorem C1_reserved_character_is_own_token :
  (forall (is_numeric : Grammar -> str -> bool) (s : str) (g : Grammar)
          (c : char) (todo : str) (i : nat) (lexeme : str) (ic : bool)
          (ec : option str) (x : char) (ec' : option str),
      lex_char [c] (_prev_char s i) (_next_char s i) lexeme ic ec g (c_info g)
        = inr ([x], false, ec') ->
      in_tuple [x] (reserved_characters g) = true ->
      (forall n, _next_char s i = Some n -> is_numeric g ([c] ++ n) = false) ->
      run is_numeric s g (c :: todo) i lexeme ic ec
      = (Yielded (Some [x]), mkFrame AtToken i [x] false ec'))
  /\ tokens Token.is_numeric (py "Te=st") grammar
     = Some (inr [Some (py "Te"); Some (py "="); Some (py "st")]).
Proof.
  split; [|exact lex_Te_st].
  intros is_numeric s g c todo i lexeme ic ec x ec' Hlex Hres Hnum.
  cbn [run]. rewrite (loop_body_reserved is_numeric s g [c] i lexeme ic ec x ec' Hlex Hres Hnum).
  reflexivity.
Qed.

(** C1 at the [=] of ["Te=st"], between two letters: the loop yields
    ["="]. *)
Lemma C1_witness :
  run Token.is_numeric (py "Te=st") grammar (py "=st") 2 [] false None
  = (Yielded (Some (py "=")), mkFrame AtToken 2 (py "=") false None).
Proof.
  apply (proj1 C1_reserved_character_is_own_token Token.is_numeric
           (py "Te=st") grammar (chr "=") (py "st") 2 [] false None (chr "=") None).
  - vm_compute. reflexivity.
  - vm_compute. reflexivity.
  - intros n H. vm_compute in H. injection H as <-. vm_compute. reflexivity.
Defined.

(** C3: whenever the current character together with the next one is
    numeric, the loop goes on to the next character without yielding;
    a sign followed by a decimal digit is such a pair, so in the base
    grammar, outside a comment, the scan moves from the sign to the digit
    with the sign kept in the lexeme; and lexing ["Number: +79"] gives
    ["Number:"] and ["+79"]. *)
Theorem C3_numeric_pair_continues :
  (forall (is_numeric : Grammar -> str -> bool) (s : str) (g : Grammar)
          (c : char) (todo : str) (i : nat) (lexeme : str) (ic : bool)
          (ec : option str) (lexeme' : str) (ic' : bool) (ec' : option str)
          (n : str),
      lex_char [c] (_prev_char s i) (_next_char s i) lexeme ic ec g (c_info g)
        = inr (lexeme', ic', ec') ->
      _next_char s i = Some n ->
      is_numeric g ([c] ++ n) = true ->
      run is_numeric s g (c :: todo) i lexeme ic ec
      = run is_numeric s g todo (S i) lexeme' ic' ec')
  /\ (forall (g : Grammar) (sign d : char),
        sign = chr "+" \/ sign = chr "-" ->
        (chr "0" <= d <= chr "9")%N ->
        Token.is_numeric g [sign; d] = true)
  /\ (forall (s : str) (i : nat) (sign d : char) (todo lexeme : str)
             (ec : option str),
        sign = chr "+" \/ sign = chr "-" ->
        (chr "0" <= d <= chr "9")%N ->
        skipn i s = sign :: d :: todo ->
        run Token.is_numeric s grammar (sign :: d :: todo) i lexeme false ec
        = run Token.is_numeric s grammar (d :: todo) (S i) (lexeme ++ [sign]) false ec)
  /\ tokens Token.is_numeric (py "Number: +79") grammar
     = Some (inr [Some (py "Number:"); Some (py "+79")]).
Proof.
  assert (A : forall (is_numeric : Grammar -> str -> bool) (s : str) (g : Grammar)
          (c : char) (todo : str) (i : nat) (lexeme : str) (ic : bool)
          (ec : option str) (lexeme' : str) (ic' : bool) (ec' : option str)
          (n : str),
      lex_char [c] (_prev_char s i) (_next_char s i) lexeme ic ec g (c_info g)
        = inr (lexeme', ic', ec') ->
      _next_char s i = Some n ->
      is_numeric g ([c] ++ n) = true ->
      run is_numeric s g (c :: todo) i lexeme ic ec
      = run is_numeric s g todo (S i) lexeme' ic' ec').
  { intros is_numeric s g c todo i lexeme ic ec lexeme' ic' ec' n Hlex Hnext Hnum.
    cbn [run]. rewrite (loop_body_numeric is_numeric s g [c] i lexeme ic ec _ n Hlex Hnext Hnum).
    reflexivity. }
  split; [exact A|]. split; [exact is_numeric_sign_digit|].
  split; [|exact lex_Number_79].
  intros s i sign d todo lexeme ec Hs Hd Hskip.
  apply A with (n := [d]).
  - apply lex_char_sign. exact Hs.
  - rewrite (next_char_todo _ _ _ _ Hskip). reflexivity.
  - apply is_numeric_sign_digit; assumption.
Qed.

(** C3 at the [+] of ["Number: +79"]: the scan moves on to the [7] with
    the sign in the lexeme. *)
Lemma C3_witness :
  run Token.is_numeric (py "Number: +79") grammar (py "+79") 8 [] false None
  = run Token.is_numeric (py "Number: +79") grammar (py "79") 9 (py "+") false None.
Proof.
  apply (proj1 (proj2 (proj2 C3_numeric_pair_continues))
           (py "Number: +79") 8 (chr "+") (chr "7") (py "9") [] None).
  - left. reflexivity.
  - vm_compute. split; discriminate.
  - reflexivity.
Defined.

(* ================================================================== *)
(** ** Pushing a token back *)

(** C7: when the generator is suspended right after yielding a token and
    the consumer sends it a value [v], the [send] itself returns [None],
    the next [next] returns exactly [v], and the [next] after that
    resumes the scan exactly as a [next] without the push-back would
    have: same event, same generator state, hence the same remaining
    tokens in the same order.  On ["One Two Three"]: ["One"], ["Two"],
    then ["Two"] is sent back, and the following values are ["Two"] and
    ["Three"]. *)
Theorem C7_push_back :
  (forall (is_numeric : Grammar -> str -> bool) (gen : generator) (v : str),
      f_loc (gi_frame gen) = AtToken ->
      exists gen1 gen2,
        send is_numeric gen (Some v) = (Yielded None, gen1)
        /\ next is_numeric gen1 = (Yielded (Some v), gen2)
        /\ next is_numeric gen2 = next is_numeric gen
        /\ forall fuel, to_list is_numeric fuel gen2 = to_list is_numeric fuel gen)
  /\ play Token.is_numeric (lexer (py "One Two Three") grammar)
       [Send None; Send None; Send (Some (py "Two")); Send None; Send None; Send None]
     = [Yielded (Some (py "One")); Yielded (Some (py "Two")); Yielded None;
        Yielded (Some (py "Two")); Yielded (Some (py "Three")); StopIteration].
Proof.
  split; [|vm_compute; reflexivity].
  intros is_numeric [s g [loc i lexeme ic ec]] v Hloc. simpl in Hloc. subst loc.
  exists (mkGenerator s g (mkFrame (AtNone v) i lexeme ic ec)),
         (mkGenerator s g (mkFrame AtBack i lexeme ic ec)).
  assert (E : next is_numeric (mkGenerator s g (mkFrame AtBack i lexeme ic ec))
              = next is_numeric (mkGenerator s g (mkFrame AtToken i lexeme ic ec)))
    by reflexivity.
  repeat split; try reflexivity; try exact E.
  intros [|fuel]; [reflexivity|].
  cbn [to_list]. rewrite E. reflexivity.
Qed.

(** C7 on ["One Two Three"], after the first token: ["One"] is sent back
    and comes again. *)
Lemma C7_witness :
  let gen := snd (next Token.is_numeric (lexer (py "One Two Three") grammar)) in
  exists gen1 gen2,
    send Token.is_numeric gen (Some (py "One")) = (Yielded None, gen1)
    /\ next Token.is_numeric gen1 = (Yielded (Some (py "One")), gen2)
    /\ next Token.is_numeric gen2 = next Token.is_numeric gen
    /\ forall fuel, to_list Token.is_numeric fuel gen2 = to_list Token.is_numeric fuel gen.
Proof.
  intros gen.
  apply (proj1 C7_push_back Token.is_numeric gen (py "One")).
  vm_compute. reflexivity.
Defined.

(* ================================================================== *)
(** ** Texts without characters of comment delimiters *)

Lemma dict_set_keys (d : dict) (k v k' : str) :
  In k' (map fst (dict_set d k v)) -> k' = k \/ In k' (map fst d).
Proof.
  induction d as [|[k0 v0] d IH]; simpl.
  - intros [<- | []]. now left.
  - destruct (eqb k k0); simpl.
    + intros [<- | H]; [now left | right; now right].
    + intros [<- | H]; [right; now left|].
      destruct (IH H) as [-> | H']; [now left | right; now right].
Qed.

(** Every character the comment machinery reacts to occurs in a comment
    delimiter of the table. *)
Lemma prepare_loop_chars (comments : list (str * str)) :
  forall (single : dict) (multi : list str) (c : char),
    In [c] (map fst (fst (prepare_loop comments single multi))
            ++ snd (prepare_loop comments single multi)) ->
    In [c] (map fst single ++ multi)
    \/ exists p, In p comments /\ (In c (fst p) \/ In c (snd p)).
Proof.
  induction comments as [|p rest IH]; intros single multi c H; simpl in H.
  - now left.
  - destruct (length (fst p) =? 1) eqn:E.
    + destruct (IH _ _ _ H) as [H' | (q & Hq & Hc)].
      * apply in_app_or in H' as [H' | H'].
        -- apply dict_set_keys in H' as [H' | H'].
           ++ right. exists p. split; [now left|]. left. rewrite <- H'. now left.
           ++ left. apply in_or_app. now left.
        -- left. apply in_or_app. now right.
      * right. exists q. split; [now right | exact Hc].
    + destruct (IH _ _ _ H) as [H' | (q & Hq & Hc)].
      * apply in_app_or in H' as [H' | H'].
        -- left. apply in_or_app. now left.
        -- apply in_app_or in H' as [H' | H'].
           ++ left. apply in_or_app. now right.
           ++ right. exists p. split; [now left|].
              unfold set_of_str in H'.
              apply in_app_or in H' as [H' | H'];
                apply in_map_iff in H' as (x & Hx & Hin);
                injection Hx as ->; [now left | now right].
      * right. exists q. split; [now right | exact Hc].
Qed.

Lemma c_info_chars (g : Grammar) (c : char) :
  in_tuple [c] (chars (c_info g)) = true ->
  exists p, In p (comments g) /\ (In c (fst p) \/ In c (snd p)).
Proof.
  intros H. apply in_tuple_In in H.
  unfold c_info, _prepare_comment_tuples in H.
  pose proof (prepare_loop_chars (comments g) [] [] c) as P.
  destruct (prepare_loop (comments g) [] []) as [single multi].
  simpl in H, P. destruct (P H) as [[] | Hp]. exact Hp.
Qed.

Lemma existsb_false {A} (f : A -> bool) (l : list A) :
  (forall x, In x l -> f x = false) -> existsb f l = false.
Proof.
  intros H. destruct (existsb f l) eqn:E; [|reflexivity].
  apply existsb_exists in E as (x & Hx & Hf). rewrite (H x Hx) in Hf. discriminate.
Qed.

Lemma in_tuple_false (x : str) (t : list str) :
  ~ In x t -> in_tuple x t = false.
Proof.
  intros H. destruct (in_tuple x t) eqn:E; [|reflexivity].
  apply in_tuple_In in E. contradiction.
Qed.

Lemma In_skipn {A} (l : list A) (i : nat) (x : A) :
  In x (skipn i l) -> In x l.
Proof.
  intros H. rewrite <- (firstn_skipn i l). apply in_or_app. now right.
Qed.

Section PlainText.

Variable g : Grammar.
Variable s : str.

(** The reserved strings are single characters. *)
Hypothesis reserved_single :
  forall r, In r (reserved_characters g) -> length r = 1.

(** No character of the text occurs in a comment delimiter. *)
Hypothesis no_delimiter :
  forall p c, In p (comments g) -> In c (fst p) \/ In c (snd p) -> ~ In c s.

(** The comment delimiters are not empty strings. *)
Hypothesis delimiters_nonempty :
  forall p, In p (comments g) -> fst p <> [] /\ snd p <> [].

Lemma plain_not_comment_char (c : char) :
  In c s -> in_tuple [c] (chars (c_info g)) = false.
Proof.
  intros Hc. destruct (in_tuple [c] (chars (c_info g))) eqn:E; [|reflexivity].
  apply c_info_chars in E as (p & Hp & Hcp).
  exfalso. exact (no_delimiter p c Hp Hcp Hc).
Qed.

Lemma plain_not_reserved (acc : str) (c : char) :
  in_tuple [c] (reserved_characters g) = false ->
  in_tuple (acc ++ [c]) (reserved_characters g) = false.
Proof.
  intros Hc. apply in_tuple_false. intros H.
  pose proof (reserved_single _ H) as L.
  rewrite length_app in L. simpl in L.
  destruct acc; [|simpl in L; lia].
  apply in_tuple_In in H. simpl in H. congruence.
Qed.

Lemma plain_no_opener (i : nat) (n : char) (rest : str) :
  skipn (i + 1) s = n :: rest ->
  startswith s (map fst (comments g)) (i + 1) = false.
Proof.
  intros Hskip. unfold startswith.
  destruct (length s <? i + 1); [reflexivity|].
  apply existsb_false. intros o Ho.
  apply in_map_iff in Ho as (p & <- & Hp).
  rewrite Hskip.
  destruct (fst p) as [|x o'] eqn:E.
  - exfalso. apply (proj1 (delimiters_nonempty p Hp)). exact E.
  - simpl. destruct (N.eqb_spec x n) as [->|]; [|reflexivity].
    exfalso. apply (no_delimiter p n Hp).
    + left. rewrite E. now left.
    + apply In_skipn with (i := i + 1). rewrite Hskip. now left.
Qed.

Lemma plain_no_closer (acc : str) (c : char) :
  In c s -> endswith (acc ++ [c]) (map snd (comments g)) = false.
Proof.
  intros Hc. unfold endswith.
  apply existsb_false. intros o Ho.
  apply in_map_iff in Ho as (p & <- & Hp).
  rewrite rev_app_distr. simpl.
  destruct (rev (snd p)) as [|x o'] eqn:E.
  - exfalso. apply (proj2 (delimiters_nonempty p Hp)).
    rewrite <- (rev_involutive (snd p)), E. reflexivity.
  - simpl. destruct (N.eqb_spec x c) as [->|]; [|reflexivity].
    exfalso. apply (no_delimiter p c Hp); [|exact Hc].
    right. apply in_rev. rewrite E. now left.
Qed.

End PlainText.

Lemma occurs_none (l : list str) (s : str) :
  forallb (fun c => negb (occurs c l)) s = true ->
  forall r c, In r l -> In c r -> ~ In c s.
Proof.
  intros H r c Hr Hc Hs.
  rewrite forallb_forall in H. specialize (H c Hs).
  apply negb_true_iff in H.
  assert (E : occurs c l = true).
  { unfold occurs. apply existsb_exists. exists r. split; [exact Hr|].
    apply existsb_exists. exists c. split; [exact Hc | apply N.eqb_refl]. }
  congruence.
Qed.

Lemma split_clean (ws : list str) (s : str) :
  forall word,
    (forall c, In c word -> in_tuple [c] ws = false) ->
    Forall (fun t => t <> [] /\ forall c, In c t -> in_tuple [c] ws = false)
           (split_on_whitespace ws word s).
Proof.
  induction s as [|c s IH]; intros word Hw; simpl.
  - destruct word; constructor; [|constructor].
    split; [discriminate | exact Hw].
  - destruct (in_tuple [c] ws) eqn:E.
    + destruct word.
      * apply IH. intros ? [].
      * constructor; [split; [discriminate | exact Hw]|].
        apply IH. intros ? [].
    + apply IH. intros x Hx. apply in_app_or in Hx as [Hx | [<- | []]];
        [now apply Hw | exact E].
Qed.

(** In the base grammar no pair of characters that ends in whitespace is
    numeric. *)
Lemma is_numeric_whitespace (c w : char) :
  in_tuple [w] (whitespace grammar) = true ->
  Token.is_numeric grammar [c; w] = false.
Proof.
  intros H. apply in_tuple_In in H. simpl in H.
  assert (E : In w [32; 9; 10; 13; 11; 12]%N).
  { simpl. decompose [or] H; try contradiction;
      match goal with E : _ = [w] |- _ => injection E as <- end; tauto. }
  clear H.
  unfold Token.is_numeric, fullmatch, Token.decimal_re. simpl grammar.
  cbn [accept plus_loop length Nat.ltb Nat.leb binary_re octal_re hex_re
       nondecimal_re grammar _s].
  unfold in_class. cbn [existsb fst snd chr].
  simpl in E. decompose [or] E; try contradiction; subst w; cbn.
  all: rewrite ?andb_false_r; reflexivity.
Qed.

Lemma lex_This_is_a_test :
  tokens Token.is_numeric (py "This is a test.") grammar
  = Some (inr [Some (py "This"); Some (py "is"); Some (py "a"); Some (py "test.")]).
Proof. vm_compute. reflexivity. Qed.

Lemma adjacent_nth (ok : char -> char -> bool) (s : str) :
  adjacent ok s = true ->
  forall i c n, nth_error s i = Some c -> nth_error s (S i) = Some n -> ok c n = true.
Proof.
  induction s as [|x s IH]; intros H i c n Hc Hn.
  - destruct i; discriminate.
  - destruct s as [|y s']; [destruct i; discriminate|].
    cbn [adjacent] in H. apply andb_prop in H as [H1 H2].
    destruct i as [|i].
    + simpl in Hc, Hn. congruence.
    + exact (IH H2 i c n Hc Hn).
Qed.

(* ================================================================== *)
(** ** Characters at which the multi-character matcher is called *)

Lemma pair_eqb_eq (p q : str * str) : pair_eqb p q = true <-> p = q.
Proof.
  destruct p as [a b], q as [c d]. unfold pair_eqb. simpl.
  rewrite andb_true_iff, !eqb_eq. split; [intros [-> ->] | intros [= -> ->]]; auto.
Qed.

Lemma multichar_unsupported (ch : str) (prev next : option str) (lexeme : str)
    (ic : bool) (ec : option str) (comments : list (str * str)) (p : str * str) :
  In p comments -> p <> (py "/*", py "*/") ->
  exists m, lex_multichar_comments ch prev next lexeme ic ec comments
            = inl (NotImplementedError m).
Proof.
  intros Hin Hp. unfold lex_multichar_comments.
  destruct comments as [|q comments]; [contradiction|].
  cbn [length Nat.eqb].
  destruct (forallb (fun p => existsb (pair_eqb p) allowed_pairs) (q :: comments))
    eqn:E.
  - exfalso. rewrite forallb_forall in E. specialize (E p Hin).
    simpl in E. rewrite orb_false_r in E. apply pair_eqb_eq in E. contradiction.
  - simpl. eexists. reflexivity.
Qed.

Lemma multi_chars_in_chars (g : Grammar) (ch : str) :
  in_tuple ch (multi_chars (c_info g)) = true ->
  in_tuple ch (chars (c_info g)) = true.
Proof.
  unfold c_info, _prepare_comment_tuples.
  destruct (prepare_loop (comments g) [] []) as [single multi]. simpl.
  rewrite !in_tuple_In. intros H. apply in_or_app. now right.
Qed.

Section NoMultiChars.

Variable is_numeric : Grammar -> str -> bool.
Variable s : str.
Variable g : Grammar.

(** A character outside the multi-character delimiters never makes
    [lex_char] raise. *)
Lemma lex_char_returns (ch : str) (prev next : option str) (lexeme : str)
    (ic : bool) (ec : option str) :
  in_tuple ch (multi_chars (c_info g)) = false ->
  exists st, lex_char ch prev next lexeme ic ec g (c_info g) = inr st.
Proof.
  intros H. unfold lex_char, lex_comment. rewrite H.
  destruct (ic || in_tuple ch (chars (c_info g))); [eexists; reflexivity|].
  destruct (negb (in_tuple ch (whitespace g))); eexists; reflexivity.
Qed.

Lemma scan_returns (todo : str) :
  forall (i : nat) (lexeme : str) (ic : bool) (ec : option str),
    (forall c, In c todo -> in_tuple [c] (multi_chars (c_info g)) = false) ->
    exists l, scan is_numeric s g todo i lexeme ic ec = inr l.
Proof.
  induction todo as [|c todo IH]; intros i lexeme ic ec H.
  - exists []. reflexivity.
  - cbn [scan]. unfold loop_body.
    destruct (lex_char_returns [c] (_prev_char s i) (_next_char s i) lexeme ic ec
                (H c (or_introl eq_refl))) as [[[l ic'] ec'] ->].
    assert (H' : forall c, In c todo -> in_tuple [c] (multi_chars (c_info g)) = false)
      by (intros x Hx; apply H; now right).
    assert (Emit_case :
      exists r, match scan is_numeric s g todo (S i) [] ic' ec' with
                | inr l0 => inr (Some l :: l0)
                | inl e => inl e
                end = inr r).
    { destruct (IH (S i) [] ic' ec' H') as [l0 ->]. eexists. reflexivity. }
    destruct (negb (eqb l [])); [|apply IH; exact H'].
    destruct (_next_char s i); [|exact Emit_case].
    destruct (ic' || is_numeric g ([c] ++ s0)); [apply IH; exact H'|].
    match goal with |- context [if ?b then _ else _] => destruct b end;
      [exact Emit_case | apply IH; exact H'].
Qed.

End NoMultiChars.

(* ================================================================== *)
(** ** Comments without a slash or a star inside *)

Lemma skipn_length_app {A} (pre l : list A) : skipn (length pre) (pre ++ l) = l.
Proof. induction pre; simpl; auto. Qed.

Lemma prev_char_last (pre : str) (x : char) (l : str) :
  _prev_char ((pre ++ [x]) ++ l) (length (pre ++ [x])) = Some [x].
Proof.
  rewrite length_app, Nat.add_1_r. cbn [_prev_char].
  rewrite <- app_assoc, nth_error_app2 by lia.
  rewrite Nat.sub_diag. reflexivity.
Qed.

(** Inside a comment of the base grammar a character other than [/] and
    [*] is appended and the comment stays open. *)
Lemma lex_char_in_comment (c : char) (prev next : option str) (lexeme : str) :
  c <> chr "/" -> c <> chr "*" ->
  lex_char [c] prev next lexeme true None grammar (c_info grammar)
  = inr (lexeme ++ [c], true, None).
Proof.
  intros H1 H2. unfold lex_char, lex_comment. cbn [orb].
  replace (in_tuple [c] (multi_chars (c_info grammar))) with false; [reflexivity|].
  symmetry. apply in_tuple_false. unfold chr in H1, H2. simpl in *.
  intros [E | [E | [E | [E | []]]]]; injection E as E; congruence.
Qed.

Lemma lex_char_star_close (prev : option str) (lexeme : str) (ic : bool)
    (ec : option str) :
  prev <> Some (py "/") ->
  lex_char (py "*") prev (Some (py "/")) lexeme ic ec grammar (c_info grammar)
  = inr (lexeme ++ py "*/", false, None).
Proof.
  intros H. unfold lex_char, lex_comment.
  replace (in_tuple (py "*") (chars (c_info grammar))) with true by reflexivity.
  rewrite orb_true_r.
  replace (in_tuple (py "*") (multi_chars (c_info grammar))) with true by reflexivity.
  unfold lex_multichar_comments.
  replace (eqb_opt (py "/") prev) with false; [reflexivity|].
  destruct prev as [p|]; [|reflexivity]. unfold eqb_opt.
  destruct (eqb (py "/") p) eqn:E; [|reflexivity].
  apply eqb_eq in E. subst p. contradiction.
Qed.

Lemma lex_char_slash_after_star (next : option str) (lexeme : str) (ic : bool)
    (ec : option str) :
  lex_char (py "/") (Some (py "*")) next lexeme ic ec grammar (c_info grammar)
  = inr (lexeme, ic, ec).
Proof.
  unfold lex_char, lex_comment.
  replace (in_tuple (py "/") (chars (c_info grammar))) with true by reflexivity.
  rewrite orb_true_r. reflexivity.
Qed.

Section CleanComment.

Variable is_numeric : Grammar -> str -> bool.
Variable s : str.

(** While the scan is inside a comment, a stretch [body] without [/] and
    [*] that is not the end of the text is appended to the lexeme as it
    stands. *)
Lemma scan_comment_body (body : str) :
  forall (pre rest lexeme : str),
    s = pre ++ body ++ rest -> rest <> [] ->
    (forall c, In c body -> c <> chr "/" /\ c <> chr "*") ->
    scan is_numeric s grammar (body ++ rest) (length pre) lexeme true None
    = scan is_numeric s grammar rest (length pre + length body) (lexeme ++ body)
        true None.
Proof.
  induction body as [|c body IH]; intros pre rest lexeme Hs Hrest Hclean.
  - simpl. now rewrite Nat.add_0_r, app_nil_r.
  - assert (Hskip : skipn (length pre) s = c :: body ++ rest)
      by (rewrite Hs; apply skipn_length_app).
    cbn [app scan]. unfold loop_body.
    destruct (Hclean c (or_introl eq_refl)) as [H1 H2].
    rewrite (lex_char_in_comment c _ _ lexeme H1 H2).
    rewrite eqb_nil_app. cbn [negb].
    rewrite (next_char_todo _ _ _ _ Hskip).
    destruct (body ++ rest) as [|n l] eqn:E.
    { destruct body; [simpl in E; contradiction | discriminate]. }
    cbn [orb]. rewrite <- E.
    replace (S (length pre)) with (length (pre ++ [c]))
      by (rewrite length_app; simpl; lia).
    rewrite (IH (pre ++ [c]) rest (lexeme ++ [c])).
    + rewrite length_app, <- !app_assoc. simpl.
      f_equal. lia.
    + rewrite <- app_assoc. exact Hs.
    + exact Hrest.
    + intros x Hx. apply Hclean. now right.
Qed.

End CleanComment.

(** With the base grammar a text that consists of one comment whose
    inside has neither [/] nor [*] is lexed to one token, the comment as
    it stands, whatever the numeric classification. *)
Lemma lex_clean_comment (is_numeric : Grammar -> str -> bool) (body : str) :
  (forall c, In c body -> c <> chr "/" /\ c <> chr "*") ->
  tokens is_numeric (py "/*" ++ body ++ py "*/") grammar
  = Some (inr [Some (py "/*" ++ body ++ py "*/")]).
Proof.
  intros Hclean. rewrite tokens_scan. f_equal.
  set (s := py "/*" ++ body ++ py "*/").
  (* the opener: [/] is skipped, [*] after [/] opens the comment *)
  assert (E0 : scan is_numeric s grammar s 0 [] false None
               = scan is_numeric s grammar (body ++ py "*/") (length (py "/*"))
                   (py "/*") true None).
  { unfold s at 2. cbn [py app map list_ascii_of_string scan].
    unfold loop_body.
    replace (_next_char s 0) with (Some (py "*")) by reflexivity.
    replace (_prev_char s 0) with (@None str) by reflexivity.
    replace (lex_char [N_of_ascii "/"] None (Some (py "*")) [] false None grammar
               (c_info grammar)) with (@inr exn lexstate ([], false, None))
      by reflexivity.
    cbn [eqb negb].
    replace (_prev_char s 1) with (Some (py "/")) by reflexivity.
    replace (lex_char [N_of_ascii "*"] (Some (py "/")) (_next_char s 1) [] false None
               grammar (c_info grammar))
      with (@inr exn lexstate (py "/*", true, None)) by reflexivity.
    replace (negb (eqb (py "/*") [])) with true by reflexivity.
    assert (N1 : exists n, _next_char s 1 = Some n).
    { unfold s. destruct body; eexists; reflexivity. }
    destruct N1 as [n ->]. reflexivity. }
  rewrite E0.
  rewrite (scan_comment_body is_numeric s body (py "/*") (py "*/") (py "/*")
             eq_refl ltac:(discriminate) Hclean).
  (* the closer *)
  set (lexeme := py "/*" ++ body).
  set (i := length (py "/*") + length body).
  assert (Hpre : exists pre x, lexeme = pre ++ [x] /\ x <> chr "/").
  { destruct (list_eq_dec N.eq_dec body []) as [Hb | Hb].
    - exists (py "/"), (chr "*"). unfold lexeme. rewrite Hb.
      split; [reflexivity | discriminate].
    - destruct (exists_last Hb) as (b & x & Hbx).
      exists (py "/*" ++ b), x.
      split; [unfold lexeme; rewrite Hbx; now rewrite app_assoc|].
      apply Hclean. rewrite Hbx. apply in_or_app. right. now left. }
  destruct Hpre as (pre & x & Hlex & Hx).
  assert (Hi : i = length lexeme) by (unfold i, lexeme; now rewrite length_app).
  assert (Hs : s = lexeme ++ py "*/") by (unfold s, lexeme; now rewrite app_assoc).
  assert (Hprev : _prev_char s i = Some [x]).
  { rewrite Hs, Hi, Hlex. apply prev_char_last. }
  assert (Hskip : skipn i s = py "*/")
    by (rewrite Hs, Hi; apply skipn_length_app).
  assert (Hprev' : _prev_char s (S i) = Some (py "*")).
  { rewrite Hs, Hi.
    replace (S (length lexeme)) with (length (lexeme ++ [chr "*"]))
      by (rewrite length_app; simpl; lia).
    replace (lexeme ++ py "*/") with ((lexeme ++ [chr "*"]) ++ py "/")
      by (now rewrite <- app_assoc).
    apply prev_char_last. }
  assert (Hnext' : _next_char s (S i) = None).
  { apply (next_char_todo s (S i) (chr "/") []).
    apply (skipn_cons_S _ _ _ _ Hskip). }
  assert (Hend : endswith (lexeme ++ py "*/") (map snd (comments grammar)) = true).
  { unfold endswith. simpl. rewrite rev_app_distr. reflexivity. }
  assert (Hne : negb (eqb (lexeme ++ py "*/") []) = true)
    by (unfold lexeme; reflexivity).
  cbn [py map list_ascii_of_string scan]. unfold loop_body.
  rewrite Hprev, (next_char_todo _ _ _ _ Hskip), Hprev', Hnext'.
  change [N_of_ascii "*"] with (py "*"). change [N_of_ascii "/"] with (py "/").
  change (N_of_ascii "*" :: py "/") with (py "*/") in *.
  rewrite lex_char_star_close
    by (intros E; injection E as E; contradiction).
  cbv beta iota. rewrite Hne, Hend, !orb_true_r. cbn [orb].
  destruct (is_numeric grammar (py "*" ++ py "/")); cbv beta iota;
    rewrite lex_char_slash_after_star; cbv beta iota;
    rewrite ?Hne; cbn [eqb negb]; rewrite Hs; reflexivity.
Qed.

(* ================================================================== *)
(** ** Comments *)

(** The comment examples of the test suite: a comment at the end, at the
    beginning and in the middle of a text with the base grammar, and
    single-character comments with the table [(('/*','*/'), ('#','\n'))],
    where the closing newline stays in the token and an unterminated
    comment runs to the end of the text. *)
Lemma lex_comment_examples :
  tokens Token.is_numeric (py "There is a /* comment */") grammar
  = Some (inr [Some (py "There"); Some (py "is"); Some (py "a");
               Some (py "/* comment */")])
  /\ tokens Token.is_numeric (py "/* At */ the beginning") grammar
     = Some (inr [Some (py "/* At */"); Some (py "the"); Some (py "beginning")])
  /\ tokens Token.is_numeric (py "In/*the*/middle.") grammar
     = Some (inr [Some (py "In"); Some (py "/*the*/"); Some (py "middle.")])
  /\ tokens Token.is_numeric (py "There is a # comment") custom
     = Some (inr [Some (py "There"); Some (py "is"); Some (py "a");
                  Some (py "# comment")])
  /\ tokens Token.is_numeric (py "There is a # comment " ++ [LF] ++ py " then more") custom
     = Some (inr [Some (py "There"); Some (py "is"); Some (py "a");
                  Some (py "# comment " ++ [LF]); Some (py "then"); Some (py "more")])
  /\ tokens Token.is_numeric
       (py "# Leading " ++ [LF] ++ py " then " ++ [LF] ++ py " more") custom
     = Some (inr [Some (py "# Leading " ++ [LF]); Some (py "then"); Some (py "more")]).
Proof. repeat split; vm_compute; reflexivity. Qed.

(** C2, the code at failing inputs.  With the base grammar the comment
    [/*a/*/] (opener, the text [a/], closer) is yielded as [/*a/*],
    without its closing delimiter: at the last [*] the matcher sees a
    [/] before it and takes the pair for an opener, so the comment is
    never closed and swallows what follows.  The comment [/*/ */] loses
    the [/] that follows its opener.  With the table of [Omnigrammar]
    every [/] or [*] makes the scan raise [NotImplementedError], so the
    comment [/* c */] gives no token at all.  (A comment without [/] and
    [*] inside is yielded as it stands: [lex_clean_comment].) *)
Theorem C2_comments_not_always_verbatim :
  (forall is_numeric,
      tokens is_numeric (py "/*a/*/") grammar = Some (inr [Some (py "/*a/*")]))
  /\ (forall is_numeric,
        tokens is_numeric (py "/*a/*/ b = 1") grammar
        = Some (inr [Some (py "/*a/* b = 1")]))
  /\ tokens Token.is_numeric (py "/*/ */") grammar = Some (inr [Some (py "/* */")])
  /\ exists m,
       tokens Token.is_numeric (py "/* c */") Omnigrammar
       = Some (inl (NotImplementedError m)).
Proof.
  split; [intros; vm_compute; reflexivity|].
  split; [intros; vm_compute; reflexivity|].
  split; [vm_compute; reflexivity|].
  eexists. vm_compute. reflexivity.
Qed.

(* ================================================================== *)
(** ** Positions of lexical errors *)

Lemma slice_bound_nat (len p : nat) :
  slice_bound len (Z.of_nat p) = Nat.min p len.
Proof.
  unfold slice_bound.
  destruct (Z.ltb_spec (Z.of_nat p) 0); [lia|].
  destruct (Z.ltb_spec (Z.of_nat p) 0); [lia|].
  now rewrite Nat2Z.id.
Qed.

Lemma firstn_min_length {A} (l : list A) (p : nat) :
  firstn (Nat.min p (length l)) l = firstn p l.
Proof.
  destruct (Nat.le_ge_cases p (length l)).
  - now rewrite Nat.min_l.
  - rewrite Nat.min_r by assumption.
    now rewrite firstn_all, firstn_all2.
Qed.

Lemma filter_firstn_indices (f : char -> bool) (doc : str) :
  forall p,
    length (filter f (firstn p doc))
    = length (filter (fun j => match nth_error doc j with
                               | Some c => f c
                               | None => false
                               end) (seq 0 p)).
Proof.
  induction doc as [|x doc IH]; intros p.
  - rewrite firstn_nil. cbn [filter].
    rewrite filter_ext with (g := fun _ => false) by (intros [|j]; reflexivity).
    now rewrite filter_false.
  - destruct p as [|p]; [reflexivity|].
    assert (T : length (filter (fun j => match nth_error (x :: doc) j with
                                         | Some c => f c
                                         | None => false
                                         end) (seq 1 p))
                = length (filter f (firstn p doc))).
    { rewrite <- seq_shift, filter_map_swap, length_map. symmetry. apply IH. }
    cbn [firstn seq filter nth_error].
    destruct (f x); cbn [length]; rewrite T; reflexivity.
Qed.

(** For a non-negative offset [count] is the number of newlines at the
    indices below it. *)
Lemma count_newlines_before (doc : str) (p : nat) :
  count doc LF (Z.of_nat p) = newlines_before doc p.
Proof.
  unfold count, newlines_before.
  rewrite slice_bound_nat, firstn_min_length, filter_firstn_indices.
  f_equal. f_equal. apply filter_ext. intros j.
  destruct (nth_error doc j); [apply N.eqb_sym | reflexivity].
Qed.

Lemma rfind_from_spec (c : char) (l : str) :
  forall base, (0 <= base)%Z ->
    (rfind_from l c base = (-1)%Z /\ forall k, nth_error l k <> Some c)
    \/ exists j, rfind_from l c base = (base + Z.of_nat j)%Z
                 /\ nth_error l j = Some c
                 /\ forall k, j < k -> nth_error l k <> Some c.
Proof.
  induction l as [|x l IH]; intros base Hb.
  - left. split; [reflexivity|]. intros [|k]; discriminate.
  - cbn [rfind_from].
    destruct (IH (base + 1)%Z ltac:(lia)) as [[E Hnone] | (j & E & Hj & Hafter)];
      rewrite E.
    + simpl (0 <=? -1)%Z. cbv iota.
      destruct (N.eqb_spec c x) as [-> | Hne].
      * right. exists 0. split; [simpl; lia|]. split; [reflexivity|].
        intros [|k] Hk; [lia | apply Hnone].
      * left. split; [reflexivity|].
        intros [|k]; [simpl; congruence | apply Hnone].
    + destruct (Z.leb_spec 0 (base + 1 + Z.of_nat j)); [|lia].
      right. exists (S j). split; [lia|]. split; [exact Hj|].
      intros [|k] Hk; [lia|]. apply Hafter. lia.
Qed.

(** For a non-negative offset [rfind] is the index of the last newline
    below it, or [-1]. *)
Lemma rfind_preceding_newline (doc : str) (p : nat) :
  preceding_newline doc p (rfind doc LF (Z.of_nat p)).
Proof.
  unfold rfind, preceding_newline.
  rewrite slice_bound_nat, firstn_min_length.
  assert (F : forall k, k < p -> nth_error (firstn p doc) k = nth_error doc k).
  { intros k Hk. rewrite nth_error_firstn.
    apply Nat.ltb_lt in Hk. now rewrite Hk. }
  destruct (rfind_from_spec LF (firstn p doc) 0%Z ltac:(lia))
    as [[E Hnone] | (j & E & Hj & Hafter)]; rewrite E.
  - split; [|now left].
    intros k Hk. rewrite <- F by lia. apply Hnone.
  - assert (j < p).
    { destruct (Nat.lt_ge_cases j p) as [|Hge]; [assumption|].
      rewrite nth_error_firstn in Hj. apply Nat.ltb_ge in Hge.
      rewrite Hge in Hj. discriminate. }
    split.
    + intros k Hk. rewrite <- F by lia. apply Hafter. lia.
    + right. split; [lia|].
      replace (Z.to_nat (0 + Z.of_nat j)) with j by lia.
      rewrite <- F by assumption. exact Hj.
Qed.

(** For every non-negative offset, the line of a [LexerError] is one
    more than the number of newlines before the offset, its column is the
    distance from the last newline before the offset (index [-1] when
    there is none), both are at least 1, and the error is rebuilt
    identically from its reduced form. *)
Lemma LexerError_position (m d : str) (p : nat) :
  let e := LexerError__init__ m d (Z.of_nat p) in
  doc e = d /\ pos e = Z.of_nat p
  /\ lineno e = (newlines_before d p + 1)%Z
  /\ preceding_newline d p (pos e - colno e)%Z
  /\ (1 <= lineno e)%Z /\ (1 <= colno e)%Z
  /\ LexerError_rebuild (LexerError__reduce__ e) = e.
Proof.
  cbn [LexerError__init__ doc pos lineno colno].
  pose proof (rfind_preceding_newline d p) as P.
  rewrite count_newlines_before.
  replace (Z.of_nat p - (Z.of_nat p - rfind d LF (Z.of_nat p)))%Z
    with (rfind d LF (Z.of_nat p)) by lia.
  repeat split; try reflexivity; try exact (proj1 P); try exact (proj2 P).
  - unfold newlines_before. lia.
  - destruct P as [_ [-> | [H _]]]; lia.
Qed.

(** In whatever state the generator is suspended, a [ValueError] raised
    at the suspension point leaves the generator as a [LexerError] for
    the text at the offset [i - len(lexeme)]. *)
Lemma lexer_error_offset (is_numeric : Grammar -> str -> bool) (gen : generator)
    (e : exn) :
  f_loc (gi_frame gen) <> NotStarted -> f_loc (gi_frame gen) <> Finished ->
  is_ValueError e = true ->
  fst (throw is_numeric gen e)
  = Raised (LexerError_
              (LexerError__init__ (exn_str e) (gi_s gen)
                 (Z.of_nat (f_idx (gi_frame gen))
                  - Z.of_nat (length (f_lexeme (gi_frame gen)))))).
Proof.
  destruct gen as [s g [loc i lexeme ic ec]]. simpl. intros H1 H2 He.
  unfold throw, step, resume, except. simpl.
  destruct loc; try contradiction; rewrite He; reflexivity.
Qed.

(** C8, the code at failing inputs.  On the text [a\n\n] the first
    token [a] is yielded at index 0 with a lexeme of length 1; a
    [ValueError] reaching the [except] clause there is turned into a
    [LexerError] at the offset [0 - 1 = -1], which [count] and [rfind]
    read from the end of the text: line 2, column -2 for an error in the
    first character of line 1.  On [ab] the offset is [-1] as well, with
    line 1 and column 0.  Neither column is 1-based, and the line of the
    first error is not the number of newlines before the offset plus
    one. *)
Theorem C8_error_offset_before_text :
  (exists e,
      play Token.is_numeric (lexer (py "a" ++ [LF; LF]) grammar)
        [Send None; Throw (ValueError (py "bad"))]
      = [Yielded (Some (py "a")); Raised (LexerError_ e)]
      /\ doc e = py "a" ++ [LF; LF]
      /\ pos e = (-1)%Z /\ lineno e = 2%Z /\ colno e = (-2)%Z)
  /\ (exists e,
        play Token.is_numeric (lexer (py "ab") grammar)
          [Send None; Throw (ValueError (py "bad"))]
        = [Yielded (Some (py "ab")); Raised (LexerError_ e)]
        /\ pos e = (-1)%Z /\ lineno e = 1%Z /\ colno e = 0%Z).
Proof.
  split; eexists; repeat split; vm_compute; reflexivity.
Qed.

(* ================================================================== *)
(** ** The non-decimal patterns of the three grammars *)

(** A match that a continuation accepts is accepted by every weaker
    continuation. *)
Lemma plus_loop_mono (m : str -> (str -> bool) -> bool) :
  (forall s k k', (forall x, k x = true -> k' x = true) ->
                  m s k = true -> m s k' = true) ->
  forall n s k k', (forall x, k x = true -> k' x = true) ->
                   plus_loop m k n s = true -> plus_loop m k' n s = true.
Proof.
  intros Hm. induction n as [|n IH]; intros s k k' Hk; simpl; [discriminate|].
  apply Hm. intros x Hx. apply orb_prop in Hx as [Hx | Hx].
  - now rewrite (Hk x Hx).
  - apply andb_prop in Hx as [H1 H2]. rewrite H1, (IH _ _ _ Hk H2).
    apply orb_true_r.
Qed.

Lemma accept_mono (r : re) :
  forall s k k', (forall x, k x = true -> k' x = true) ->
                 accept r s k = true -> accept r s k' = true.
Proof.
  induction r as [|c|rs|a IHa b IHb|a IHa b IHb|a IHa|a IHa|name a IHa];
    intros s k k' Hk; cbn [accept].
  - apply Hk.
  - destruct s as [|x s]; [discriminate|].
    intros H. apply andb_prop in H as [H1 H2]. now rewrite H1, (Hk _ H2).
  - destruct s as [|x s]; [discriminate|].
    intros H. apply andb_prop in H as [H1 H2]. now rewrite H1, (Hk _ H2).
  - apply IHa. intros x. apply IHb. exact Hk.
  - intros H. apply orb_prop in H as [H | H].
    + now rewrite (IHa _ _ _ Hk H).
    + rewrite (IHb _ _ _ Hk H). apply orb_true_r.
  - intros H. apply orb_prop in H as [H | H].
    + now rewrite (IHa _ _ _ Hk H).
    + rewrite (Hk _ H). apply orb_true_r.
  - apply plus_loop_mono; [exact IHa | exact Hk].
  - apply IHa. exact Hk.
Qed.

(** Whatever a pattern fully matches, [match] finds at the start. *)
Lemma fullmatch_match (r : re) (t : str) :
  fullmatch r t = true -> match_ r t = true.
Proof. apply accept_mono. reflexivity. Qed.

Lemma sign_spec (s : str) (k : str -> bool) :
  accept _s s k = true
  <-> exists sign rest, is_sign sign /\ s = sign ++ rest /\ k rest = true.
Proof.
  unfold _s, is_sign. cbn [accept]. rewrite orb_true_iff. split.
  - intros [H | H].
    + destruct s as [|x s]; [discriminate|].
      apply andb_prop in H as [Hx H]. apply sign_class_spec in Hx.
      exists [x], s. repeat split; [|exact H].
      destruct Hx as [-> | ->]; [right; left | right; right]; reflexivity.
    + exists [], s. repeat split; [now left | exact H].
  - intros (sign & rest & [-> | [-> | ->]] & -> & H).
    + now right.
    + left. exact H.
    + left. exact H.
Qed.

Lemma class_spec (rs : list (char * char)) (s : str) (k : str -> bool) :
  accept (Class rs) s k = true
  <-> exists x rest, s = x :: rest /\ in_class rs x = true /\ k rest = true.
Proof.
  destruct s as [|x s]; cbn [accept].
  - split; [discriminate | intros (? & ? & E & _); discriminate].
  - rewrite andb_true_iff. split.
    + intros [H1 H2]. now exists x, s.
    + intros (y & r & E & H1 & H2). injection E as -> ->. now split.
Qed.

Lemma radix_2_16_spec (s : str) (k : str -> bool) :
  accept radix_2_16 s k = true
  <-> exists radix rest, is_radix radix /\ s = radix ++ rest /\ k rest = true.
Proof.
  unfold radix_2_16, is_radix.
  change (accept _ s k) with
    (accept (Class [(chr "2", chr "9")]) s k
     || accept (Lit (chr "1")) s (fun s' => accept (Class [(chr "0", chr "6")]) s' k)).
  rewrite orb_true_iff, class_spec, lit_spec. split.
  - intros [(x & rest & -> & Hx & H) | (r1 & -> & H)].
    + exists [x], rest. repeat split; [|exact H]. left. exists x. split; [|reflexivity].
      unfold in_class in Hx. simpl in Hx. rewrite orb_false_r in Hx.
      apply andb_prop in Hx as [H1 H2]. apply N.leb_le in H1, H2. unfold chr. simpl. lia.
    + apply class_spec in H as (x & rest & -> & Hx & H).
      exists [chr "1"; x], rest. repeat split; [|exact H]. right. exists x.
      split; [|reflexivity].
      unfold in_class in Hx. simpl in Hx. rewrite orb_false_r in Hx.
      apply andb_prop in Hx as [H1 H2]. apply N.leb_le in H1, H2. unfold chr. simpl. lia.
  - intros (radix & rest & [(d & [H1 H2] & ->) | (d & [H1 H2] & ->)] & -> & H).
    + left. exists d, rest. repeat split; [|exact H].
      unfold in_class. simpl. apply N.leb_le in H1, H2.
      unfold chr in H1, H2. simpl in H1, H2. now rewrite H1, H2.
    + right. exists (d :: rest). split; [reflexivity|].
      apply class_spec. exists d, rest. repeat split; [|exact H].
      unfold in_class. simpl. apply N.leb_le in H1, H2.
      unfold chr in H1, H2. simpl in H1, H2. now rewrite H1, H2.
Qed.

Lemma hex_class_in_class (c : char) :
  in_class [(chr "0", chr "9"); (chr "|", chr "|"); (chr "A", chr "F");
            (chr "|", chr "|"); (chr "a", chr "f")] c = hex_class c.
Proof.
  unfold in_class, hex_class, hex_digit, chr. simpl.
  split_comparisons; simpl; try reflexivity; lia.
Qed.

(** The tail [digits#] of the patterns of the subclasses. *)
Lemma digits_tail_spec (s : str) :
  accept non_decimal_digits s (fun s' => accept (Lit (chr "#")) s' at_end) = true
  <-> exists digits, digits <> [] /\ forallb hex_class digits = true
                     /\ s = digits ++ py "#".
Proof.
  unfold non_decimal_digits. cbn [accept].
  change (plus_loop _ _ _ s) with
    (accept (Plus (Class [(chr "0", chr "9"); (chr "|", chr "|"); (chr "A", chr "F");
                          (chr "|", chr "|"); (chr "a", chr "f")])) s
       (fun s' => accept (Lit (chr "#")) s' at_end)).
  rewrite plus_class_accept. split.
  - intros (d & rest & Hd & -> & Hall & H).
    apply lit_spec in H as (r & -> & H). destruct r; [|discriminate].
    exists d. split; [exact Hd | split; [|reflexivity]].
    rewrite forallb_forall in *. intros c Hc. rewrite <- hex_class_in_class. now apply Hall.
  - intros (d & Hd & Hall & ->). exists d, (py "#").
    split; [exact Hd | split; [reflexivity | split; [|reflexivity]]].
    rewrite forallb_forall in *. intros c Hc. rewrite hex_class_in_class. now apply Hall.
Qed.

(** [ODLgrammar.nondecimal_re] fully matches exactly the strings
    [radix#[sign]digits#]: a radix from 2 to 16, the optional sign after
    the first octothorpe, and one or more characters of [[0-9|A-F|a-f]];
    the digits are not checked against the radix. *)
Lemma ODL_nondecimal_re_spec (t : str) :
  (exists r, nondecimal_re ODLgrammar = Some r /\ fullmatch r t = true)
  <-> exists sign, is_sign sign /\ signed_radix_form [] sign t.
Proof.
  simpl nondecimal_re. split.
  - intros (r & E & H). injection E as <-.
    unfold fullmatch in H. cbn [accept] in H.
    change (accept (Group "radix" _) t ?k) with (accept radix_2_16 t k) in H.
    apply radix_2_16_spec in H as (radix & r1 & Hr & -> & H).
    apply lit_spec in H as (r2 & -> & H).
    change (match r2 with [] => _ | _ => _ end || _)
      with (accept _s r2 (fun s3 => accept non_decimal_digits s3
                            (fun s4 => accept (Lit (chr "#")) s4 at_end))) in H.
    apply sign_spec in H as (sign & r3 & Hs & -> & H).
    apply digits_tail_spec in H as (d & Hd & Hall & ->).
    exists sign. split; [exact Hs|]. exists radix, d. repeat split; assumption.
  - intros (sign & Hs & radix & d & Hr & Hd & Hall & ->).
    eexists. split; [reflexivity|].
    unfold fullmatch. cbn [accept].
    change (accept (Group "radix" _) ?s ?k) with (accept radix_2_16 s k).
    apply radix_2_16_spec. exists radix, (py "#" ++ sign ++ d ++ py "#").
    split; [exact Hr | split; [reflexivity|]].
    apply lit_spec. exists (sign ++ d ++ py "#"). split; [reflexivity|].
    change (match ?s with [] => _ | _ => _ end || _)
      with (accept _s s (fun s3 => accept non_decimal_digits s3
                           (fun s4 => accept (Lit (chr "#")) s4 at_end))).
    apply sign_spec. exists sign, (d ++ py "#").
    split; [exact Hs | split; [reflexivity|]].
    apply digits_tail_spec. exists d. repeat split; assumption.
Qed.

(** [Omnigrammar.nondecimal_re] fully matches exactly the strings
    [[sign]radix#[sign]digits#]: two independent optional signs, one
    before the radix and one after the first octothorpe. *)
Lemma Omni_nondecimal_re_spec (t : str) :
  (exists r, nondecimal_re Omnigrammar = Some r /\ fullmatch r t = true)
  <-> exists sign1 sign2,
        is_sign sign1 /\ is_sign sign2 /\ signed_radix_form sign1 sign2 t.
Proof.
  simpl nondecimal_re. split.
  - intros (r & E & H). injection E as <-.
    unfold fullmatch in H.
    change (accept _ t at_end) with
      (accept _s t (fun s0 => accept radix_2_16 s0
         (fun s1 => accept (Lit (chr "#")) s1
            (fun s2 => accept _s s2
               (fun s3 => accept non_decimal_digits s3
                  (fun s4 => accept (Lit (chr "#")) s4 at_end)))))) in H.
    apply sign_spec in H as (sign1 & r0 & Hs1 & -> & H).
    apply radix_2_16_spec in H as (radix & r1 & Hr & -> & H).
    apply lit_spec in H as (r2 & -> & H).
    apply sign_spec in H as (sign2 & r3 & Hs2 & -> & H).
    apply digits_tail_spec in H as (d & Hd & Hall & ->).
    exists sign1, sign2. split; [exact Hs1 | split; [exact Hs2|]].
    exists radix, d. repeat split; assumption.
  - intros (sign1 & sign2 & Hs1 & Hs2 & radix & d & Hr & Hd & Hall & ->).
    eexists. split; [reflexivity|].
    unfold fullmatch.
    change (accept _ ?t at_end) with
      (accept _s t (fun s0 => accept radix_2_16 s0
         (fun s1 => accept (Lit (chr "#")) s1
            (fun s2 => accept _s s2
               (fun s3 => accept non_decimal_digits s3
                  (fun s4 => accept (Lit (chr "#")) s4 at_end)))))).
    apply sign_spec. exists sign1, (radix ++ py "#" ++ sign2 ++ d ++ py "#").
    split; [exact Hs1 | split; [reflexivity|]].
    apply radix_2_16_spec. exists radix, (py "#" ++ sign2 ++ d ++ py "#").
    split; [exact Hr | split; [reflexivity|]].
    apply lit_spec. exists (sign2 ++ d ++ py "#"). split; [reflexivity|].
    apply sign_spec. exists sign2, (d ++ py "#").
    split; [exact Hs2 | split; [reflexivity|]].
    apply digits_tail_spec. exists d. repeat split; assumption.
Qed.

(** [grammar.nondecimal_pre_re] matches at the start of exactly the
    strings that begin with [[sign]radix#] for a radix 2, 8 or 16. *)
Lemma nondecimal_pre_re_spec (t : str) :
  match_ (nondecimal_pre_re grammar) t = true
  <-> exists sign radix rest,
        is_sign sign /\ (radix = py "2" \/ radix = py "8" \/ radix = py "16")
        /\ t = sign ++ radix ++ py "#" ++ rest.
Proof.
  unfold match_. simpl nondecimal_pre_re.
  change (accept _ t _) with
    (accept _s t (fun s0 =>
       accept (Lit (chr "2")) s0 (fun s1 => accept (Lit (chr "#")) s1 (fun _ => true))
       || (accept (Lit (chr "8")) s0 (fun s1 => accept (Lit (chr "#")) s1 (fun _ => true))
           || accept (Seq (Lit (chr "1")) (Lit (chr "6"))) s0
                (fun s1 => accept (Lit (chr "#")) s1 (fun _ => true))))).
  rewrite sign_spec. split.
  - intros (sign & r0 & Hs & -> & H).
    exists sign.
    apply orb_prop in H as [H | H]; [|apply orb_prop in H as [H | H]].
    + apply lit_spec in H as (r1 & -> & H). apply lit_spec in H as (r2 & -> & _).
      exists (py "2"), r2. repeat split; [exact Hs | now left].
    + apply lit_spec in H as (r1 & -> & H). apply lit_spec in H as (r2 & -> & _).
      exists (py "8"), r2. repeat split; [exact Hs | right; now left].
    + apply lit2_spec in H as (r1 & -> & H). apply lit_spec in H as (r2 & -> & _).
      exists (py "16"), r2. repeat split; [exact Hs | right; now right].
  - intros (sign & radix & rest & Hs & Hr & ->).
    exists sign, (radix ++ py "#" ++ rest).
    split; [exact Hs | split; [reflexivity|]].
    destruct Hr as [-> | [-> | ->]]; simpl; rewrite ?N.eqb_refl; reflexivity.
Qed.

Lemma radix_form_prefix (radix : str) (digit : char -> bool) (t : str) :
  radix = py "2" \/ radix = py "8" \/ radix = py "16" ->
  radix_form radix digit t -> match_ (nondecimal_pre_re grammar) t = true.
Proof.
  intros Hr (sign & d & Hs & _ & _ & ->).
  apply nondecimal_pre_re_spec.
  exists sign, radix, (d ++ py "#"). repeat split; assumption.
Qed.

(** X6: Every string that [binary_re], [octal_re] or [hex_re] fully matches
    is matched at its start by [nondecimal_pre_re]: the prefix test never
    rejects a literal that one of the three patterns accepts. *)
Theorem radix_patterns_pass_prefix_test (t : str) :
  fullmatch (binary_re grammar) t = true
  \/ fullmatch (octal_re grammar) t = true
  \/ fullmatch (hex_re grammar) t = true ->
  match_ (nondecimal_pre_re grammar) t = true.
Proof.
  intros [H | [H | H]].
  - apply (proj1 (binary_octal_re_spec t)) in H.
    eapply radix_form_prefix; [|exact H]. now left.
  - apply (proj2 (binary_octal_re_spec t)) in H.
    eapply radix_form_prefix; [|exact H]. right; now left.
  - apply hex_re_spec in H.
    eapply radix_form_prefix; [|exact H]. right; now right.
Qed.

Lemma radix_patterns_pass_prefix_test_witness :
  match_ (nondecimal_pre_re grammar) (py "-16#1F#") = true.
Proof.
  apply radix_patterns_pass_prefix_test. right. right. vm_compute. reflexivity.
Defined.

Lemma radix_form_signed (radix : str) (digit : char -> bool) (t : str) :
  is_radix radix -> (forall c, digit c = true -> hex_class c = true) ->
  radix_form radix digit t ->
  exists sign, is_sign sign /\ signed_radix_form sign [] t.
Proof.
  intros Hr Hd (sign & d & Hs & Hne & Hall & ->).
  exists sign. split; [exact Hs|]. exists radix, d.
  split; [exact Hr | split; [exact Hne | split; [|reflexivity]]].
  rewrite forallb_forall in *. intros c Hc. apply Hd. now apply Hall.
Qed.

(** X9: The permissive grammar accepts the non-decimal literals of the other
    two: every string fully matched by [binary_re], [octal_re] or
    [hex_re] of the base grammar, or by [ODLgrammar.nondecimal_re], is
    fully matched by [Omnigrammar.nondecimal_re]. *)
Theorem Omni_accepts_other_dialects (t : str) :
  fullmatch (binary_re grammar) t = true
  \/ fullmatch (octal_re grammar) t = true
  \/ fullmatch (hex_re grammar) t = true
  \/ (exists r, nondecimal_re ODLgrammar = Some r /\ fullmatch r t = true) ->
  exists r, nondecimal_re Omnigrammar = Some r /\ fullmatch r t = true.
Proof.
  intros H. apply Omni_nondecimal_re_spec.
  assert (R2 : is_radix (py "2")) by (left; exists (chr "2"); split; [unfold chr; simpl; lia | reflexivity]).
  assert (R8 : is_radix (py "8")) by (left; exists (chr "8"); split; [unfold chr; simpl; lia | reflexivity]).
  assert (R16 : is_radix (py "16")) by (right; exists (chr "6"); split; [unfold chr; simpl; lia | reflexivity]).
  assert (D2 : forall c, binary_digit c = true -> hex_class c = true).
  { intros c. unfold binary_digit, hex_class, hex_digit, chr. simpl.
    split_comparisons; simpl; intros; try reflexivity; try discriminate; lia. }
  assert (D8 : forall c, octal_digit c = true -> hex_class c = true).
  { intros c. unfold octal_digit, hex_class, hex_digit, chr. simpl.
    split_comparisons; simpl; intros; try reflexivity; try discriminate; lia. }
  assert (D16 : forall c, hex_class c = true -> hex_class c = true) by auto.
  destruct H as [H | [H | [H | H]]].
  - apply (proj1 (binary_octal_re_spec t)) in H.
    destruct (radix_form_signed (py "2") binary_digit t R2 D2 H) as (sign & Hs & F).
    exists sign, []. split; [exact Hs | split; [now left | exact F]].
  - apply (proj2 (binary_octal_re_spec t)) in H.
    destruct (radix_form_signed (py "8") octal_digit t R8 D8 H) as (sign & Hs & F).
    exists sign, []. split; [exact Hs | split; [now left | exact F]].
  - apply hex_re_spec in H.
    destruct (radix_form_signed (py "16") _ t R16 D16 H) as (sign & Hs & F).
    exists sign, []. split; [exact Hs | split; [now left | exact F]].
  - apply ODL_nondecimal_re_spec in H as (sign & Hs & F).
    exists [], sign. split; [now left | split; [exact Hs | exact F]].
Qed.

Lemma Omni_accepts_other_dialects_witness :
  exists r, nondecimal_re Omnigrammar = Some r /\ fullmatch r (py "12#-3A#") = true.
Proof.
  apply Omni_accepts_other_dialects. right. right. right.
  eexists. split; [reflexivity|]. vm_compute. reflexivity.
Defined.

(* ================================================================== *)
(** ** The tables of [_prepare_comment_tuples] *)

Lemma dict_get_set_same (d : dict) (k v : str) :
  dict_get (dict_set d k v) k = Some v.
Proof.
  induction d as [|[k0 v0] d IH]; simpl.
  - now rewrite eqb_refl.
  - destruct (eqb k k0) eqn:E; simpl; [now rewrite eqb_refl | now rewrite E].
Qed.

Lemma dict_get_set_other (d : dict) (k v k' : str) :
  k' <> k -> dict_get (dict_set d k v) k' = dict_get d k'.
Proof.
  intros Hne. apply eqb_neq in Hne.
  induction d as [|[k0 v0] d IH]; simpl.
  - now rewrite Hne.
  - destruct (eqb k k0) eqn:E; simpl.
    + apply eqb_eq in E. subst k0. now rewrite Hne.
    + now rewrite IH.
Qed.

Lemma dict_get_keys (d : dict) (k : str) :
  In k (map fst d) <-> exists v, dict_get d k = Some v.
Proof.
  induction d as [|[k0 v0] d IH]; simpl.
  - split; [contradiction | intros [v H]; discriminate].
  - destruct (eqb k k0) eqn:E.
    + apply eqb_eq in E. subst k0. split; [intros _; now exists v0 | now left].
    + apply eqb_neq in E. rewrite <- IH. split; [intros [H | H] | intros H].
      * congruence.
      * exact H.
      * now right.
Qed.

Lemma prepare_loop_single (cs : list (str * str)) :
  forall (single : dict) (multi : list str) (k v : str),
    dict_get (fst (prepare_loop cs single multi)) k = Some v
    <-> (exists before after,
            cs = before ++ (k, v) :: after /\ length k = 1
            /\ forall q, In q after -> fst q <> k)
        \/ (dict_get single k = Some v
            /\ forall q, In q cs -> length (fst q) = 1 -> fst q <> k).
Proof.
  induction cs as [|[o c] cs IH]; intros single multi k v.
  - simpl. split.
    + intros H. right. split; [exact H | intros q []].
    + intros [(b & a & E & _) | [H _]]; [destruct b; discriminate | exact H].
  - cbn [prepare_loop fst snd].
    destruct (Nat.eqb_spec (length o) 1) as [L | L]; rewrite IH; clear IH.
    + split.
      * intros [(b & a & -> & Hk & Ha) | [H Hn]].
        -- left. exists ((o, c) :: b), a. repeat split; assumption.
        -- destruct (list_eq_dec N.eq_dec k o) as [-> | Hne].
           ++ rewrite dict_get_set_same in H. injection H as ->.
              left. exists [], cs. repeat split; [exact L|].
              intros q Hq E. apply (Hn q Hq); [rewrite E; exact L | exact E].
           ++ rewrite dict_get_set_other in H by exact Hne.
              right. split; [exact H|].
              intros q [<- | Hq] Hl; [simpl; congruence | now apply Hn].
      * intros [(b & a & E & Hk & Ha) | [H Hn]].
        -- destruct b as [|p b]; simpl in E.
           ++ injection E as -> -> ->.
              right. split; [apply dict_get_set_same|].
              intros q Hq _. now apply Ha.
           ++ injection E as _ ->.
              left. exists b, a. repeat split; assumption.
        -- right. split.
           ++ rewrite dict_get_set_other; [exact H|].
              intros ->. apply (Hn (o, c)); [now left | exact L | reflexivity].
           ++ intros q Hq. apply Hn. now right.
    + split.
      * intros [(b & a & -> & Hk & Ha) | [H Hn]].
        -- left. exists ((o, c) :: b), a. repeat split; assumption.
        -- right. split; [exact H|].
           intros q [<- | Hq] Hl; [simpl in Hl; contradiction | now apply Hn].
      * intros [(b & a & E & Hk & Ha) | [H Hn]].
        -- destruct b as [|p b]; simpl in E.
           ++ injection E as -> -> ->. contradiction.
           ++ injection E as _ ->.
              left. exists b, a. repeat split; assumption.
        -- right. split; [exact H|]. intros q Hq. apply Hn. now right.
Qed.

Lemma prepare_loop_multi (cs : list (str * str)) :
  forall (single : dict) (multi : list str) (k : str),
    In k (snd (prepare_loop cs single multi))
    <-> In k multi
        \/ exists p c, In p cs /\ length (fst p) <> 1 /\ k = [c]
                       /\ (In c (fst p) \/ In c (snd p)).
Proof.
  induction cs as [|[o c] cs IH]; intros single multi k.
  - simpl. split; [now left | intros [H | (p & x & [] & _)]; exact H].
  - cbn [prepare_loop fst snd].
    destruct (Nat.eqb_spec (length o) 1) as [L | L]; rewrite IH; clear IH.
    + split.
      * intros [H | (p & x & Hp & Hl & -> & Hx)]; [now left|].
        right. exists p, x. repeat split; try assumption. now right.
      * intros [H | (p & x & [<- | Hp] & Hl & -> & Hx)]; [now left | |].
        -- simpl in Hl. contradiction.
        -- right. exists p, x. repeat split; assumption.
    + split.
      * intros [H | (p & x & Hp & Hl & -> & Hx)].
        -- apply in_app_or in H as [H | H]; [now left|].
           right. unfold set_of_str in H.
           apply in_app_or in H as [H | H];
             apply in_map_iff in H as (x & <- & Hx);
             exists (o, c), x;
             (split; [now left | split; [exact L | split; [reflexivity|]]]);
             [now left | now right].
        -- right. exists p, x. repeat split; try assumption. now right.
      * intros [H | (p & x & [<- | Hp] & Hl & -> & Hx)].
        -- left. apply in_or_app. now left.
        -- left. apply in_or_app. right. unfold set_of_str. apply in_or_app.
           simpl in Hx. destruct Hx as [Hx | Hx];
             [left | right]; apply in_map_iff; now exists x.
        -- right. exists p, x. repeat split; assumption.
Qed.

(** X10: What [_prepare_comment_tuples] computes from a comment table.
    [single_comments] maps an opener of one character to the closer of
    the last pair of the table with that opener; [multi_chars] holds
    exactly the characters of the openers and closers of the other pairs;
    [chars] holds the keys of the one and the members of the other. *)
Theorem prepare_comment_tuples_spec (cs : list (str * str)) (k : str) :
  (forall v,
      dict_get (single_comments (_prepare_comment_tuples cs)) k = Some v
      <-> exists before after,
            cs = before ++ (k, v) :: after /\ length k = 1
            /\ forall q, In q after -> fst q <> k)
  /\ (In k (multi_chars (_prepare_comment_tuples cs))
      <-> exists p c, In p cs /\ length (fst p) <> 1 /\ k = [c]
                      /\ (In c (fst p) \/ In c (snd p)))
  /\ (in_tuple k (chars (_prepare_comment_tuples cs)) = true
      <-> (exists v, dict_get (single_comments (_prepare_comment_tuples cs)) k = Some v)
          \/ In k (multi_chars (_prepare_comment_tuples cs))).
Proof.
  unfold _prepare_comment_tuples.
  pose proof (prepare_loop_single cs [] [] k) as S.
  pose proof (prepare_loop_multi cs [] [] k) as M.
  destruct (prepare_loop cs [] []) as [single multi]. simpl in *.
  split; [|split].
  - intros v. rewrite S. split; [intros [H | [H _]] | intros H].
    + exact H.
    + discriminate.
    + now left.
  - rewrite M. split; [intros [[] | H] | intros H]; [exact H | now right].
  - rewrite in_tuple_In, in_app_iff, dict_get_keys. reflexivity.
Qed.

(* ================================================================== *)
(** ** Texts without comment characters *)

Section NoCommentChars.

Variable is_numeric : Grammar -> str -> bool.
Variable g : Grammar.
Variable s : str.

(** Outside a comment, a character the comment machinery does not react
    to is appended to the lexeme unless it is whitespace. *)
Lemma lex_char_plain (c : char) (prev next : option str) (lexeme : str)
    (ec : option str) :
  in_tuple [c] (chars (c_info g)) = false ->
  lex_char [c] prev next lexeme false ec g (c_info g)
  = inr (if in_tuple [c] (whitespace g) then lexeme else lexeme ++ [c], false, ec).
Proof.
  intros H. unfold lex_char. rewrite H. cbn [orb].
  destruct (in_tuple [c] (whitespace g)); reflexivity.
Qed.

(** The tokens of such a text, put together, are its non-whitespace
    characters in order, none lost, repeated or moved; [acc] is the
    lexeme collected so far. *)
Lemma scan_preserves (todo : str) :
  forall (i : nat) (acc : str) (ec : option str),
    skipn i s = todo ->
    (forall c, In c todo -> in_tuple [c] (chars (c_info g)) = false) ->
    (acc = [] \/ todo <> []) ->
    exists l,
      scan is_numeric s g todo i acc false ec = inr (map Some l)
      /\ concat l
         = acc ++ filter (fun c => negb (in_tuple [c] (whitespace g))) todo.
Proof.
  induction todo as [|c todo IH]; intros i acc ec Hskip Hplain Hacc.
  - destruct Hacc as [-> | Hne]; [|contradiction].
    exists []. split; reflexivity.
  - assert (Hplain' : forall x, In x todo -> in_tuple [x] (chars (c_info g)) = false)
      by (intros x Hx; apply Hplain; now right).
    pose proof (skipn_cons_S _ _ _ _ Hskip) as Hskip'.
    cbn [scan filter]. unfold loop_body.
    rewrite (lex_char_plain c _ _ acc ec (Hplain c (or_introl eq_refl))).
    rewrite (next_char_todo _ _ _ _ Hskip).
    set (keep := fun c => negb (in_tuple [c] (whitespace g))).
    set (lexeme := if in_tuple [c] (whitespace g) then acc else acc ++ [c]).
    assert (Hlex : acc ++ (if negb (in_tuple [c] (whitespace g))
                           then c :: filter keep todo else filter keep todo)
                   = lexeme ++ filter keep todo).
    { unfold lexeme. destruct (in_tuple [c] (whitespace g)); simpl;
        [reflexivity | now rewrite <- app_assoc]. }
    rewrite Hlex. clear Hlex.
    assert (Emit_case :
      exists l, match scan is_numeric s g todo (S i) [] false ec with
                | inr l0 => inr (Some lexeme :: l0)
                | inl e => inl e
                end = inr (map Some l)
                /\ concat l = lexeme ++ filter keep todo).
    { destruct (IH (S i) [] ec Hskip' Hplain' (or_introl eq_refl)) as (l & -> & Hl).
      exists (lexeme :: l). split; [reflexivity|]. simpl. now rewrite Hl. }
    destruct (eqb lexeme []) eqn:E; cbn [negb].
    + apply eqb_eq in E. rewrite E. apply IH; [exact Hskip' | exact Hplain' | now left].
    + destruct todo as [|n todo']; [exact Emit_case|].
      assert (Continue_case :
        exists l, scan is_numeric s g (n :: todo') (S i) lexeme false ec
                  = inr (map Some l)
                  /\ concat l = lexeme ++ filter keep (n :: todo'))
        by (apply IH; [exact Hskip' | exact Hplain' | right; discriminate]).
      cbn [orb]. destruct (is_numeric g ([c] ++ [n])); [exact Continue_case|].
      match goal with |- context [if ?b then _ else _] => destruct b end;
        [exact Emit_case | exact Continue_case].
Qed.

End NoCommentChars.

(** X11: For every grammar and numeric classification, a text without
    characters the comment machinery reacts to is lexed without error,
    and its tokens put together are exactly its non-whitespace characters
    in their order: nothing is lost, repeated or moved.  No token is
    empty or contains whitespace, so a text of whitespace only (or the
    empty text) gives no token. *)
Theorem tokens_preserve_text (is_numeric : Grammar -> str -> bool) (g : Grammar)
    (s : str) :
  (forall c, In c s -> in_tuple [c] (chars (c_info g)) = false) ->
  exists l,
    tokens is_numeric s g = Some (inr (map Some l))
    /\ concat l = filter (fun c => negb (in_tuple [c] (whitespace g))) s
    /\ Forall (fun t => t <> [] /\ forall c, In c t -> in_tuple [c] (whitespace g) = false) l
    /\ (filter (fun c => negb (in_tuple [c] (whitespace g))) s = [] -> l = []).
Proof.
  intros Hplain. rewrite tokens_scan.
  destruct (scan_preserves is_numeric g s s 0 [] None eq_refl Hplain (or_introl eq_refl))
    as (l & E & Hl).
  exists l. rewrite E. simpl in Hl.
  assert (Hne : Forall (fun t : str => t <> []) l).
  { pose proof (scan_nonempty is_numeric s g s 0 [] false None (map Some l) E) as F.
    rewrite Forall_forall in *. intros t Ht.
    destruct (F (Some t) (in_map Some l t Ht)) as (tok & Et & Hn).
    injection Et as ->. exact Hn. }
  split; [reflexivity | split; [exact Hl | split]].
  - rewrite Forall_forall in *. intros t Ht. split; [now apply Hne|].
    intros c Hc.
    assert (Hin : In c (concat l)) by (apply in_concat; now exists t).
    rewrite Hl in Hin. apply filter_In in Hin as [_ Hin].
    now apply negb_true_iff in Hin.
  - intros Hempty. rewrite Hempty in Hl.
    destruct l as [|t l]; [reflexivity|].
    inversion Hne as [|? ? Ht _]; subst.
    simpl in Hl. destruct t; [contradiction | discriminate].
Qed.

Lemma tokens_preserve_text_witness :
  let s := py " a=b +7; " in
  exists l,
    tokens Token.is_numeric s grammar = Some (inr (map Some l))
    /\ concat l = filter (fun c => negb (in_tuple [c] (whitespace grammar))) s
    /\ Forall (fun t => t <> [] /\ forall c, In c t -> in_tuple [c] (whitespace grammar) = false) l
    /\ (filter (fun c => negb (in_tuple [c] (whitespace grammar))) s = [] -> l = []).
Proof.
  intros s. apply tokens_preserve_text.
  intros c Hc. apply negb_true_iff.
  revert c Hc. apply forallb_forall. vm_compute. reflexivity.
Defined.

(* ================================================================== *)
(** ** Reserved characters as tokens of their own *)

Lemma split_tokens_boundary (ws res : list str) (word : str) (n : char) (t : str) :
  in_tuple [n] ws || in_tuple [n] res = true ->
  split_tokens ws res word (n :: t)
  = emit word (split_tokens ws res [] (n :: t)).
Proof.
  intros H. cbn [split_tokens].
  destruct (in_tuple [n] ws); [reflexivity|].
  destruct (in_tuple [n] res); [reflexivity | discriminate].
Qed.

Section ReservedSplit.

Variable is_numeric : Grammar -> str -> bool.
Variable g : Grammar.
Variable s : str.

Hypothesis reserved_single :
  forall r, In r (reserved_characters g) -> length r = 1.

Hypothesis no_delimiter :
  forall p c, In p (comments g) -> In c (fst p) \/ In c (snd p) -> ~ In c s.

Hypothesis delimiters_nonempty :
  forall p, In p (comments g) -> fst p <> [] /\ snd p <> [].

Hypothesis no_numeric_before_whitespace :
  forall c w, in_tuple [w] (whitespace g) = true -> is_numeric g [c; w] = false.

(** A numeric pair of neighbouring characters has no reserved character
    in it. *)
Hypothesis numeric_unreserved :
  forall i c n,
    nth_error s i = Some c -> nth_error s (S i) = Some n ->
    is_numeric g [c; n] = true ->
    in_tuple [c] (reserved_characters g) = false
    /\ in_tuple [n] (reserved_characters g) = false.

Lemma scan_split_tokens (todo : str) :
  forall (i : nat) (acc : str),
    skipn i s = todo ->
    (acc = [] \/ exists c todo', todo = c :: todo'
                                 /\ in_tuple [c] (whitespace g) = false
                                 /\ in_tuple [c] (reserved_characters g) = false) ->
    scan is_numeric s g todo i acc false None
    = inr (map Some (split_tokens (whitespace g) (reserved_characters g) acc todo)).
Proof.
  induction todo as [|c todo IH]; intros i acc Hskip Hacc.
  - destruct Hacc as [-> | (c & t & E & _)]; [reflexivity | discriminate].
  - assert (Hc : In c s) by (apply In_skipn with (i := i); rewrite Hskip; now left).
    pose proof (skipn_cons_S _ _ _ _ Hskip) as Hskip'.
    cbn [scan]. unfold loop_body.
    rewrite (lex_char_plain g c _ _ acc None
               (plain_not_comment_char g s no_delimiter c Hc)).
    rewrite (next_char_todo _ _ _ _ Hskip).
    destruct (in_tuple [c] (whitespace g)) eqn:Ews.
    + (* whitespace: nothing is being collected *)
      destruct Hacc as [-> | (c' & t & E & Hw & _)];
        [|injection E as <- <-; congruence].
      cbn [eqb negb split_tokens]. rewrite Ews. cbn [emit].
      apply IH; [exact Hskip' | now left].
    + rewrite eqb_nil_app. cbn [negb].
      assert (Hcres : in_tuple [c] (reserved_characters g) = true -> acc = []).
      { intros Hr. destruct Hacc as [-> | (c' & t & E & _ & Hr')]; [reflexivity|].
        injection E as <- <-. congruence. }
      destruct todo as [|n todo'].
      * (* the last character *)
        cbn [scan split_tokens]. rewrite Ews.
        destruct (in_tuple [c] (reserved_characters g)) eqn:Er.
        -- rewrite (Hcres eq_refl). reflexivity.
        -- cbn [split_tokens]. destruct (acc ++ [c]) eqn:E;
             [destruct acc; discriminate | reflexivity].
      * assert (Hn : In n s).
        { apply In_skipn with (i := S i). rewrite Hskip'. now left. }
        rewrite (plain_no_opener g s no_delimiter delimiters_nonempty i n todo')
          by (rewrite Nat.add_1_r; exact Hskip').
        rewrite (plain_no_closer g s no_delimiter delimiters_nonempty acc c Hc).
        rewrite !orb_false_r. cbn [orb].
        assert (Hsplit_c : in_tuple [c] (reserved_characters g) = false ->
                  split_tokens (whitespace g) (reserved_characters g) acc (c :: n :: todo')
                  = split_tokens (whitespace g) (reserved_characters g) (acc ++ [c])
                      (n :: todo')).
        { intros Er. cbn [split_tokens]. now rewrite Ews, Er. }
        destruct (is_numeric g ([c] ++ [n])) eqn:En.
        -- (* a numeric pair: neither character is reserved *)
           destruct (numeric_unreserved i c n (skipn_cons_nth _ _ _ _ Hskip)
                       (skipn_cons_nth _ _ _ _ Hskip') En) as [Hrc Hrn].
           rewrite (Hsplit_c Hrc).
           apply IH; [exact Hskip'|].
           right. exists n, todo'. split; [reflexivity | split; [|exact Hrn]].
           destruct (in_tuple [n] (whitespace g)) eqn:E; [|reflexivity].
           simpl in En. rewrite (no_numeric_before_whitespace c n E) in En.
           discriminate.
        -- destruct (in_tuple [c] (reserved_characters g)) eqn:Er.
           ++ (* a reserved character is a token of its own *)
              rewrite (Hcres eq_refl). cbn [app]. rewrite Er, orb_true_r.
              rewrite (IH (S i) [] Hskip') by now left.
              cbn [split_tokens]. rewrite Ews, Er. reflexivity.
           ++ rewrite (plain_not_reserved g reserved_single acc c Er), orb_false_r.
              rewrite (Hsplit_c eq_refl).
              destruct (in_tuple [n] (whitespace g) || in_tuple [n] (reserved_characters g))
                eqn:Eb.
              ** rewrite (IH (S i) [] Hskip') by now left.
                 rewrite (split_tokens_boundary _ _ (acc ++ [c]) n todo' Eb).
                 destruct (acc ++ [c]) eqn:E; [destruct acc; discriminate|].
                 reflexivity.
              ** apply orb_false_elim in Eb as [Ewn Ern].
                 apply IH; [exact Hskip'|].
                 right. exists n, todo'. repeat split; assumption.
Qed.

Lemma tokens_split_tokens :
  tokens is_numeric s g
  = Some (inr (map Some
                 (split_tokens (whitespace g) (reserved_characters g) [] s))).
Proof.
  rewrite tokens_scan. f_equal. apply scan_split_tokens; [reflexivity | now left].
Qed.

End ReservedSplit.

(** X12: For a grammar with single-character reserved strings and non-empty
    comment delimiters, a classification that takes no pair ending in
    whitespace for numeric, and a text without characters of comment
    delimiters in which no numeric pair of neighbours contains a reserved
    character, the lexer is the reference tokenizer: words are cut at
    whitespace and at reserved characters, whitespace is dropped and
    every reserved character is a token of its own. *)
Theorem lexer_splits_at_whitespace_and_reserved
    (is_numeric : Grammar -> str -> bool) (g : Grammar) (s : str) :
  (forall r, In r (reserved_characters g) -> length r = 1) ->
  (forall p c, In p (comments g) -> In c (fst p) \/ In c (snd p) -> ~ In c s) ->
  (forall p, In p (comments g) -> fst p <> [] /\ snd p <> []) ->
  (forall c w, in_tuple [w] (whitespace g) = true -> is_numeric g [c; w] = false) ->
  (forall i c n,
      nth_error s i = Some c -> nth_error s (S i) = Some n ->
      is_numeric g [c; n] = true ->
      in_tuple [c] (reserved_characters g) = false
      /\ in_tuple [n] (reserved_characters g) = false) ->
  tokens is_numeric s g
  = Some (inr (map Some
                 (split_tokens (whitespace g) (reserved_characters g) [] s))).
Proof. intros. apply tokens_split_tokens; assumption. Qed.

Lemma lexer_splits_at_whitespace_and_reserved_witness :
  let s := py "key = (79, b);x" in
  tokens Token.is_numeric s grammar
  = Some (inr (map Some
                 (split_tokens (whitespace grammar) (reserved_characters grammar) [] s))).
Proof.
  intros s. apply lexer_splits_at_whitespace_and_reserved.
  - intros r Hr. simpl in Hr.
    repeat (destruct Hr as [<- | Hr]; [reflexivity|]). contradiction.
  - intros p c [<- | []] [Hc | Hc].
    + apply (occurs_none [py "/*"] s) with (r := py "/*");
        [vm_compute; reflexivity | now left | exact Hc].
    + apply (occurs_none [py "*/"] s) with (r := py "*/");
        [vm_compute; reflexivity | now left | exact Hc].
  - intros p [<- | []]. split; discriminate.
  - exact is_numeric_whitespace.
  - intros i c n Hc Hn Hnum.
    pose proof (adjacent_nth
      (fun c n => negb (Token.is_numeric grammar [c; n])
                  || (negb (in_tuple [c] (reserved_characters grammar))
                      && negb (in_tuple [n] (reserved_characters grammar))))
      s ltac:(vm_compute; reflexivity) i c n Hc Hn) as H.
    cbv beta in H. rewrite Hnum in H. cbn [negb orb] in H.
    apply andb_prop in H as [H1 H2].
    now rewrite negb_true_iff in H1, H2.
Defined.

(* ================================================================== *)
(** ** When the lexer raises *)

Section Raises.

Variable is_numeric : Grammar -> str -> bool.
Variable s : str.
Variable g : Grammar.

(** With a table of [('/*', '*/')] pairs only, [lex_char] never raises. *)
Lemma lex_char_supported (ch : str) (prev next : option str) (lexeme : str)
    (ic : bool) (ec : option str) :
  forallb (fun p => existsb (pair_eqb p) allowed_pairs) (comments g) = true ->
  exists st, lex_char ch prev next lexeme ic ec g (c_info g) = inr st.
Proof.
  intros Hall.
  destruct (in_tuple ch (multi_chars (c_info g))) eqn:Em;
    [|now apply lex_char_returns].
  unfold lex_char, lex_comment. rewrite Em.
  rewrite (multi_chars_in_chars g ch Em), orb_true_r.
  unfold lex_multichar_comments. rewrite Hall. cbn [negb].
  destruct (comments g) as [|p cs] eqn:Ec.
  - unfold c_info in Em. rewrite Ec in Em. discriminate.
  - cbn [length Nat.eqb].
    repeat match goal with
      | |- context [if ?b then _ else _] => destruct b
      end; eexists; reflexivity.
Qed.

Lemma scan_supported (todo : str) :
  forallb (fun p => existsb (pair_eqb p) allowed_pairs) (comments g) = true ->
  forall (i : nat) (lexeme : str) (ic : bool) (ec : option str),
    exists l, scan is_numeric s g todo i lexeme ic ec = inr l.
Proof.
  intros Hall. induction todo as [|c todo IH]; intros i lexeme ic ec.
  - exists []. reflexivity.
  - cbn [scan]. unfold loop_body.
    destruct (lex_char_supported [c] (_prev_char s i) (_next_char s i) lexeme ic ec Hall)
      as [[[l ic'] ec'] ->].
    assert (Emit_case :
      exists r, match scan is_numeric s g todo (S i) [] ic' ec' with
                | inr l0 => inr (Some l :: l0)
                | inl e => inl e
                end = inr r).
    { destruct (IH (S i) [] ic' ec') as [l0 ->]. eexists. reflexivity. }
    destruct (negb (eqb l [])); [|apply IH].
    destruct (_next_char s i); [|exact Emit_case].
    destruct (ic' || is_numeric g ([c] ++ s0)); [apply IH|].
    match goal with |- context [if ?b then _ else _] => destruct b end;
      [exact Emit_case | apply IH].
Qed.

(** With another pair in the table, the scan of a text that holds a
    character of a multi-character delimiter ends in
    [NotImplementedError]. *)
Lemma scan_unsupported (p : str * str) (todo : str) :
  In p (comments g) -> p <> (py "/*", py "*/") ->
  forall (i : nat) (lexeme : str) (ic : bool) (ec : option str),
    (exists c, In c todo /\ in_tuple [c] (multi_chars (c_info g)) = true) ->
    exists m, scan is_numeric s g todo i lexeme ic ec = inl (NotImplementedError m).
Proof.
  intros Hp Hne. induction todo as [|c todo IH]; intros i lexeme ic ec (x & Hx & Hm).
  - contradiction.
  - cbn [scan]. unfold loop_body.
    destruct (in_tuple [c] (multi_chars (c_info g))) eqn:Ec.
    + destruct (multichar_unsupported [c] (_prev_char s i) (_next_char s i)
                  lexeme ic ec (comments g) p Hp Hne) as [m Em].
      exists m. unfold lex_char, lex_comment.
      now rewrite (multi_chars_in_chars g [c] Ec), orb_true_r, Ec, Em.
    + assert (Hrest : exists c, In c todo /\ in_tuple [c] (multi_chars (c_info g)) = true).
      { destruct Hx as [<- | Hx]; [congruence | now exists x]. }
      destruct (lex_char_returns g [c] (_prev_char s i) (_next_char s i) lexeme ic ec Ec)
        as [[[l ic'] ec'] ->].
      assert (Emit_case :
        exists m, match scan is_numeric s g todo (S i) [] ic' ec' with
                  | inr l0 => inr (Some l :: l0)
                  | inl e => inl e
                  end = inl (NotImplementedError m)).
      { destruct (IH (S i) [] ic' ec' Hrest) as [m ->]. now exists m. }
      destruct (negb (eqb l [])); [|now apply IH].
      destruct (_next_char s i); [|exact Emit_case].
      destruct (ic' || is_numeric g ([c] ++ s0)); [now apply IH|].
      match goal with |- context [if ?b then _ else _] => destruct b end;
        [exact Emit_case | now apply IH].
Qed.

End Raises.

Lemma forallb_false_exists {A} (f : A -> bool) (l : list A) :
  forallb f l = false -> exists x, In x l /\ f x = false.
Proof.
  induction l as [|a l IH]; simpl; [discriminate|].
  destruct (f a) eqn:E; simpl.
  - intros H. destruct (IH H) as (x & Hx & Hf). exists x. split; [now right | exact Hf].
  - intros _. exists a. split; [now left | exact E].
Qed.

(** Lexing a text raises exactly when the comment table holds a pair
    other than [('/*', '*/')] and the text holds a character of a
    multi-character delimiter; the exception is then
    [NotImplementedError].  In every other case [list(lexer(s, g))] is a
    list of tokens. *)
Lemma lexer_raises_iff (is_numeric : Grammar -> str -> bool) (g : Grammar) (s : str) :
  ((exists e, tokens is_numeric s g = Some (inl e))
   <-> (exists p, In p (comments g) /\ p <> (py "/*", py "*/"))
       /\ (exists c, In c s /\ in_tuple [c] (multi_chars (c_info g)) = true))
  /\ (forall e, tokens is_numeric s g = Some (inl e) ->
                exists m, e = NotImplementedError m)
  /\ ((exists e, tokens is_numeric s g = Some (inl e))
      \/ (exists l, tokens is_numeric s g = Some (inr l))).
Proof.
  rewrite tokens_scan.
  assert (Back : (exists p, In p (comments g) /\ p <> (py "/*", py "*/"))
                 /\ (exists c, In c s /\ in_tuple [c] (multi_chars (c_info g)) = true)
                 -> exists m, scan is_numeric s g s 0 [] false None
                              = inl (NotImplementedError m)).
  { intros [(p & Hp & Hne) Hc].
    exact (scan_unsupported is_numeric s g p s Hp Hne 0 [] false None Hc). }
  assert (Forth : forall e, scan is_numeric s g s 0 [] false None = inl e ->
                  (exists p, In p (comments g) /\ p <> (py "/*", py "*/"))
                  /\ (exists c, In c s /\ in_tuple [c] (multi_chars (c_info g)) = true)).
  { intros e He. split.
    - destruct (forallb (fun p => existsb (pair_eqb p) allowed_pairs) (comments g)) eqn:Ea.
      + destruct (scan_supported is_numeric s g s Ea 0 [] false None) as [l El].
        congruence.
      + apply forallb_false_exists in Ea as (p & Hp & Hf).
        exists p. split; [exact Hp|]. intros ->. discriminate Hf.
    - destruct (existsb (fun c => in_tuple [c] (multi_chars (c_info g))) s) eqn:Ex.
      + apply existsb_exists in Ex as (c & Hc & Hm). now exists c.
      + destruct (scan_returns is_numeric s g s 0 [] false None) as [l El];
          [|congruence].
        intros c Hc. destruct (in_tuple [c] (multi_chars (c_info g))) eqn:E;
          [|reflexivity].
        assert (existsb (fun c => in_tuple [c] (multi_chars (c_info g))) s = true)
          by (apply existsb_exists; now exists c).
        congruence. }
  split; [|split].
  - split.
    + intros [e He]. injection He as He. exact (Forth e He).
    + intros H. destruct (Back H) as [m ->]. eexists. reflexivity.
  - intros e He. injection He as He.
    destruct (Back (Forth e He)) as [m Hm]. exists m. congruence.
  - destruct (scan is_numeric s g s 0 [] false None) as [e | l];
      [left | right]; eexists; reflexivity.
Qed.

(** X14: With the base grammar and the ODL grammar lexing never raises,
    whatever the text and the numeric classification.  With the table of
    [Omnigrammar] it raises [NotImplementedError] exactly for the texts
    that contain a [/] or a [*]. *)
Theorem lexer_raises_per_grammar (is_numeric : Grammar -> str -> bool) (s : str) :
  (exists l, tokens is_numeric s grammar = Some (inr l))
  /\ (exists l, tokens is_numeric s ODLgrammar = Some (inr l))
  /\ ((exists m, tokens is_numeric s Omnigrammar = Some (inl (NotImplementedError m)))
      <-> In (chr "/") s \/ In (chr "*") s).
Proof.
  split; [|split].
  - rewrite tokens_scan. destruct (scan_supported is_numeric s grammar s eq_refl
                                     0 [] false None) as [l ->]. now exists l.
  - rewrite tokens_scan. destruct (scan_supported is_numeric s ODLgrammar s eq_refl
                                     0 [] false None) as [l ->]. now exists l.
  - destruct (lexer_raises_iff is_numeric Omnigrammar s) as (I & N & _).
    assert (M : forall c, in_tuple [c] (multi_chars (c_info Omnigrammar)) = true
                          <-> c = chr "/" \/ c = chr "*").
    { intros c. rewrite in_tuple_In. unfold chr. simpl. split.
      - intros [E | [E | [E | [E | []]]]]; injection E as <-; auto.
      - intros [-> | ->]; auto. }
    split.
    + intros [m Hm].
      destruct (proj1 I (ex_intro _ _ Hm)) as [_ (c & Hc & Hmc)].
      apply M in Hmc as [-> | ->]; auto.
    + intros H.
      assert (E : exists e, tokens is_numeric s Omnigrammar = Some (inl e)).
      { apply I. split.
        - exists (py "#", [LF]). split; [right; now left | discriminate].
        - destruct H as [H | H]; eexists; (split; [exact H|]); apply M; auto. }
      destruct E as [e He]. destruct (N e He) as [m ->]. now exists m.
Qed.

(* ================================================================== *)
(** ** Texts separated by whitespace only *)

(** [prefixb p s] holds exactly when [s] begins with [p]. *)
Lemma prefixb_app (p s : str) : prefixb p s = true <-> exists rest, s = p ++ rest.
Proof.
  revert s; induction p as [|x p IH]; intros s; cbn [prefixb].
  - split; [intros _; now exists s | reflexivity].
  - destruct s as [|y s].
    + split; [discriminate | intros [r H]; discriminate].
    + rewrite andb_true_iff, N.eqb_eq, IH. split.
      * intros [-> [r ->]]. now exists r.
      * intros [r H]. injection H as -> ->. split; [reflexivity | now exists r].
Qed.

(** A string that [substring] does not find occurs nowhere in the text. *)
Lemma substring_none (d s : str) :
  substring d s = false -> forall pre post, s <> pre ++ d ++ post.
Proof.
  induction s as [|y s IH]; intros H pre post E; cbn [substring] in H;
    apply orb_false_iff in H as [H1 H2].
  - destruct pre; [|discriminate]. simpl in E.
    assert (prefixb d [] = true) by (apply prefixb_app; now exists post).
    congruence.
  - destruct pre as [|x pre].
    + simpl in E.
      assert (prefixb d (y :: s) = true) by (apply prefixb_app; now exists post).
      congruence.
    + injection E as -> E. exact (IH H2 pre post E).
Qed.

(** The set [multi_chars] in terms of the comment table. *)
Lemma multi_chars_spec (g : Grammar) (c : char) :
  in_tuple [c] (multi_chars (c_info g)) = true <-> multi_delimiter_char (comments g) c.
Proof.
  rewrite in_tuple_In. unfold c_info, _prepare_comment_tuples, multi_delimiter_char.
  pose proof (prepare_loop_multi (comments g) [] [] [c]) as M.
  destruct (prepare_loop (comments g) [] []) as [single multi]. simpl in *.
  rewrite M. split.
  - intros [[] | (p & x & Hp & Hl & E & Hx)]. injection E as ->. now exists p.
  - intros (p & Hp & Hl & Hx). right. now exists p, c.
Qed.

Lemma multi_chars_none (g : Grammar) (c : char) :
  in_tuple [c] (multi_chars (c_info g)) = false <-> ~ multi_delimiter_char (comments g) c.
Proof.
  rewrite <- multi_chars_spec. destruct (in_tuple [c] (multi_chars (c_info g)));
    split; congruence.
Qed.

(** A character the comment machinery reacts to is a one-character opener
    of the table or a character of a multi-character pair. *)
Lemma chars_cases (g : Grammar) (c : char) :
  in_tuple [c] (chars (c_info g)) = true ->
  (exists v, In ([c], v) (comments g)) \/ multi_delimiter_char (comments g) c.
Proof.
  intros H. destruct (in_tuple [c] (multi_chars (c_info g))) eqn:E.
  - right. now apply multi_chars_spec.
  - left. apply in_tuple_In in H.
    assert (N : ~ In [c] (multi_chars (c_info g)))
      by (rewrite <- in_tuple_In; congruence).
    unfold c_info, _prepare_comment_tuples in *.
    pose proof (prepare_loop_single (comments g) [] [] [c]) as S.
    destruct (prepare_loop (comments g) [] []) as [single multi]. simpl in *.
    apply in_app_or in H as [H | H]; [|contradiction].
    apply dict_get_keys in H as [v Hv]. exists v.
    apply S in Hv as [(b & a & E' & _) | [Hv _]]; [|discriminate].
    rewrite E'. apply in_or_app. right. now left.
Qed.

Lemma skipn_nth_cons {A} (l : list A) (k : nat) (x : A) :
  nth_error l k = Some x -> skipn k l = x :: skipn (S k) l.
Proof.
  revert l. induction k as [|k IH]; intros [|y l] H; try discriminate.
  - simpl in H. injection H as ->. reflexivity.
  - simpl in H. exact (IH l H).
Qed.

Lemma text_at {A} (s : list A) (i : nat) (todo : list A) :
  skipn i s = todo -> s = firstn i s ++ todo.
Proof. intros <-. symmetry. apply firstn_skipn. Qed.

(** The previous character and the current one are neighbours in the text. *)
Lemma prev_char_text (s : str) (i : nat) (c x : char) (todo : str) :
  skipn i s = c :: todo -> _prev_char s i = Some [x] ->
  exists pre, s = pre ++ [x; c] ++ todo.
Proof.
  intros Hs Hp. destruct i as [|k]; [discriminate|].
  cbn [_prev_char] in Hp.
  destruct (nth_error s k) as [y|] eqn:E; [|discriminate].
  injection Hp as ->.
  apply skipn_nth_cons in E. rewrite Hs in E.
  exists (firstn k s). exact (text_at s k _ E).
Qed.

Lemma eqb_opt_eq (x : str) (y : option str) : eqb_opt x y = true <-> y = Some x.
Proof.
  destruct y as [y|]; simpl.
  - rewrite eqb_eq. split; [now intros -> | now intros [= ->]].
  - split; discriminate.
Qed.

Lemma firstn_S_skipn {A} (s : list A) (i : nat) (c : A) (todo : list A) :
  skipn i s = c :: todo -> firstn (S i) s = firstn i s ++ [c].
Proof.
  revert s. induction i as [|i IH]; intros s H.
  - simpl in H. subst s. reflexivity.
  - destruct s as [|y s]; [discriminate|]. simpl in H.
    change (firstn (S (S i)) (y :: s)) with (y :: firstn (S i) s).
    change (firstn (S i) (y :: s)) with (y :: firstn i s).
    rewrite (IH s H). reflexivity.
Qed.

(** With a non-empty table of [('/*', '*/')] pairs the matcher passes
    its two checks. *)
Lemma multichar_supported_table (cs : list (str * str)) (ch : str)
    (prev next : option str) (lexeme : str) (ic : bool) (ec : option str) :
  cs <> [] -> (forall p, In p cs -> p = (py "/*", py "*/")) ->
  lex_multichar_comments ch prev next lexeme ic ec cs
  = if eqb ch (py "*") then
      if eqb_opt (py "/") prev then inr (lexeme ++ py "/*", true, ec)
      else if eqb_opt (py "/") next then inr (lexeme ++ py "*/", false, None)
      else inr (lexeme ++ py "*", ic, ec)
    else if eqb ch (py "/") then
      if negb (eqb_opt (py "*") prev) && negb (eqb_opt (py "*") next)
      then inr (lexeme ++ py "/", ic, ec)
      else inr (lexeme, ic, ec)
    else inr (lexeme, ic, ec).
Proof.
  intros Hne Hall. unfold lex_multichar_comments.
  destruct cs as [|p cs]; [contradiction|].
  cbn [length Nat.eqb].
  replace (forallb (fun p => existsb (pair_eqb p) allowed_pairs) (p :: cs)) with true.
  - replace (existsb (pair_eqb (py "/*", py "*/")) (p :: cs)) with true; [reflexivity|].
    symmetry. apply existsb_exists. exists p. split; [now left|].
    rewrite (Hall p (or_introl eq_refl)). reflexivity.
  - symmetry. apply forallb_forall. intros q Hq. rewrite (Hall q Hq). reflexivity.
Qed.

Section WhitespaceSplit.

Variable is_numeric : Grammar -> str -> bool.
Variable g : Grammar.
Variable s : str.

(** The reserved strings are single characters. *)
Hypothesis reserved_single :
  forall r, In r (reserved_characters g) -> length r = 1.

(** Two neighbouring characters that are not whitespace form a numeric
    pair, or neither of them is reserved: inside a word there is no
    reserved character at which the word would be cut. *)
Hypothesis no_reserved_boundary :
  forall i c n,
    nth_error s i = Some c -> nth_error s (S i) = Some n ->
    in_tuple [c] (whitespace g) = false -> in_tuple [n] (whitespace g) = false ->
    is_numeric g [c; n] = true
    \/ (in_tuple [c] (reserved_characters g) = false
        /\ in_tuple [n] (reserved_characters g) = false).

(** No pair of characters that ends in whitespace is numeric. *)
Hypothesis no_numeric_before_whitespace :
  forall c w, in_tuple [w] (whitespace g) = true -> is_numeric g [c; w] = false.

(** No comment delimiter occurs in the text. *)
Hypothesis no_delimiter_in_text :
  forall p d pre post,
    In p (comments g) -> d = fst p \/ d = snd p -> s <> pre ++ d ++ post.

(** A character of the text that belongs to a multi-character pair is
    not whitespace, and the table then holds no pair but [/* */]. *)
Hypothesis table_supported :
  forall c, In c s -> multi_delimiter_char (comments g) c ->
    in_tuple [c] (whitespace g) = false
    /\ forall p, In p (comments g) -> p = (py "/*", py "*/").

(** Outside a comment every character of such a text that is not
    whitespace is appended to the lexeme, a lone [/] or [*] included. *)
Lemma word_char (i : nat) (c : char) (todo acc : str) :
  skipn i s = c :: todo ->
  lex_char [c] (_prev_char s i) (_next_char s i) acc false None g (c_info g)
  = inr (if in_tuple [c] (whitespace g) then acc else acc ++ [c], false, None).
Proof.
  intros Hs.
  assert (Hc : In c s) by (apply In_skipn with (i := i); rewrite Hs; now left).
  unfold lex_char. cbn [orb].
  destruct (in_tuple [c] (chars (c_info g))) eqn:Ech.
  - apply chars_cases in Ech as [[v Hv] | Hm].
    + exfalso.
      apply (no_delimiter_in_text ([c], v) [c] (firstn i s) todo Hv (or_introl eq_refl)).
      exact (text_at s i _ Hs).
    + destruct (table_supported c Hc Hm) as [Hws Hall]. rewrite Hws.
      unfold lex_comment. rewrite (proj2 (multi_chars_spec g c) Hm).
      destruct Hm as (p & Hp & _ & Hin).
      rewrite multichar_supported_table;
        [|intros E; rewrite E in Hp; contradiction | exact Hall].
      pose proof (Hall p Hp) as Ep.
      assert (Open : forall pre post, s <> pre ++ py "/*" ++ post).
      { intros pre post. apply (no_delimiter_in_text p (py "/*") pre post Hp).
        left. now rewrite Ep. }
      assert (Close : forall pre post, s <> pre ++ py "*/" ++ post).
      { intros pre post. apply (no_delimiter_in_text p (py "*/") pre post Hp).
        right. now rewrite Ep. }
      assert (Cases : c = chr "/" \/ c = chr "*").
      { rewrite Ep in Hin. simpl in Hin. unfold chr. simpl. 
        decompose [or] Hin; try contradiction; subst c; auto. }
      assert (NextIs : forall x, _next_char s i = Some [x] ->
                exists post, todo = x :: post).
      { intros x Hx. rewrite (next_char_todo _ _ _ _ Hs) in Hx.
        destruct todo as [|n t]; [discriminate|]. injection Hx as ->. now exists t. }
      destruct Cases as [-> | ->].
      * change (eqb [chr "/"] (py "*")) with false.
        change (eqb [chr "/"] (py "/")) with true. cbv iota.
        destruct (eqb_opt (py "*") (_prev_char s i)) eqn:E1.
        { exfalso. apply eqb_opt_eq in E1.
          destruct (prev_char_text s i _ _ todo Hs E1) as [pre E].
          apply (Close pre todo). exact E. }
        destruct (eqb_opt (py "*") (_next_char s i)) eqn:E2.
        { exfalso. apply eqb_opt_eq in E2.
          destruct (NextIs _ E2) as [post ->].
          apply (Open (firstn i s) post). exact (text_at s i _ Hs). }
        reflexivity.
      * change (eqb [chr "*"] (py "*")) with true. cbv iota.
        destruct (eqb_opt (py "/") (_prev_char s i)) eqn:E1.
        { exfalso. apply eqb_opt_eq in E1.
          destruct (prev_char_text s i _ _ todo Hs E1) as [pre E].
          apply (Open pre todo). exact E. }
        destruct (eqb_opt (py "/") (_next_char s i)) eqn:E2.
        { exfalso. apply eqb_opt_eq in E2.
          destruct (NextIs _ E2) as [post ->].
          apply (Close (firstn i s) post). exact (text_at s i _ Hs). }
        reflexivity.
  - destruct (in_tuple [c] (whitespace g)); reflexivity.
Qed.

Lemma no_opener_ahead (j : nat) :
  startswith s (map fst (comments g)) j = false.
Proof.
  unfold startswith. destruct (length s <? j); [reflexivity|].
  apply existsb_false. intros o Ho.
  apply in_map_iff in Ho as (p & <- & Hp).
  destruct (prefixb (fst p) (skipn j s)) eqn:E; [|reflexivity].
  exfalso. apply prefixb_app in E as [rest E].
  apply (no_delimiter_in_text p (fst p) (firstn j s) rest Hp (or_introl eq_refl)).
  exact (text_at s j _ E).
Qed.

Lemma no_closer_behind (i : nat) (pre lexeme : str) :
  firstn i s = pre ++ lexeme ->
  endswith lexeme (map snd (comments g)) = false.
Proof.
  intros Hl. unfold endswith. apply existsb_false. intros o Ho.
  apply in_map_iff in Ho as (p & <- & Hp).
  destruct (prefixb (rev (snd p)) (rev lexeme)) eqn:E; [|reflexivity].
  exfalso. apply prefixb_app in E as [r E].
  assert (E' : lexeme = rev r ++ snd p).
  { rewrite <- (rev_involutive lexeme), E, rev_app_distr, rev_involutive.
    reflexivity. }
  apply (no_delimiter_in_text p (snd p) (pre ++ rev r) (skipn i s) Hp (or_intror eq_refl)).
  rewrite <- (firstn_skipn i s) at 1. rewrite Hl, E', <- !app_assoc. reflexivity.
Qed.

Lemma word_not_reserved (acc : str) (c : char) :
  in_tuple [c] (reserved_characters g) = false ->
  in_tuple (acc ++ [c]) (reserved_characters g) = false.
Proof. exact (plain_not_reserved g reserved_single acc c). Qed.

(** The scan from index [i] with the word [acc] collected so far, which
    ends at index [i], gives the rest of the split.  A non-empty [acc]
    is only carried to a character that is not whitespace. *)
Lemma scan_whitespace_split (todo : str) :
  forall (i : nat) (acc : str),
    skipn i s = todo ->
    (exists pre, firstn i s = pre ++ acc) ->
    (acc = [] \/ exists c todo', todo = c :: todo'
                                 /\ in_tuple [c] (whitespace g) = false) ->
    scan is_numeric s g todo i acc false None
    = inr (map Some (split_on_whitespace (whitespace g) acc todo)).
Proof.
  induction todo as [|c todo IH]; intros i acc Hskip Hpre Hacc.
  - destruct Hacc as [-> | (c & t & E & _)]; [reflexivity | discriminate].
  - pose proof (skipn_cons_S _ _ _ _ Hskip) as Hskip'.
    assert (Hpre' : exists pre, firstn (S i) s = pre ++ acc ++ [c]).
    { destruct Hpre as [pre Hpre]. exists pre.
      rewrite (firstn_S_skipn s i c todo Hskip), Hpre, app_assoc. reflexivity. }
    assert (Hnil : exists pre, firstn (S i) s = pre ++ []).
    { exists (firstn (S i) s). now rewrite app_nil_r. }
    cbn [scan split_on_whitespace]. unfold loop_body.
    rewrite (word_char i c todo acc Hskip).
    destruct (in_tuple [c] (whitespace g)) eqn:Ews.
    + destruct Hacc as [-> | (c' & t & E & Hn)];
        [|injection E as <- <-; congruence].
      cbn. apply IH; [exact Hskip' | exact Hnil | now left].
    + rewrite eqb_nil_app. cbn [negb].
      rewrite (next_char_todo _ _ _ _ Hskip).
      destruct todo as [|n todo'].
      * cbn. destruct acc; reflexivity.
      * rewrite (no_opener_ahead (i + 1)).
        destruct Hpre' as [pre Hpre'].
        rewrite (no_closer_behind (S i) pre (acc ++ [c]) Hpre').
        rewrite !orb_false_r. cbn [orb].
        destruct (is_numeric g ([c] ++ [n])) eqn:En.
        -- rewrite (IH (S i) (acc ++ [c]) Hskip').
           ++ reflexivity.
           ++ now exists pre.
           ++ right. exists n, todo'. split; [reflexivity|].
              destruct (in_tuple [n] (whitespace g)) eqn:E; [|reflexivity].
              simpl in En. rewrite (no_numeric_before_whitespace c n E) in En.
              discriminate.
        -- destruct (in_tuple [n] (whitespace g)) eqn:Ewn.
           ++ cbn [orb].
              rewrite (IH (S i) [] Hskip' Hnil) by now left.
              cbn [split_on_whitespace]. rewrite Ewn.
              destruct (acc ++ [c]) eqn:E; [destruct acc; discriminate|].
              reflexivity.
           ++ destruct (no_reserved_boundary i c n
                          (skipn_cons_nth _ _ _ _ Hskip)
                          (skipn_cons_nth _ _ _ _ Hskip') Ews Ewn)
                as [Hnum | [Hrc Hrn]];
                [simpl in En; congruence|].
              rewrite Hrn, (word_not_reserved acc c Hrc). cbn [orb].
              rewrite (IH (S i) (acc ++ [c]) Hskip').
              ** reflexivity.
              ** now exists pre.
              ** right. exists n, todo'. split; [reflexivity | exact Ewn].
Qed.

Lemma tokens_whitespace_split :
  tokens is_numeric s g
  = Some (inr (map Some (split_on_whitespace (whitespace g) [] s))).
Proof.
  rewrite tokens_scan. f_equal.
  apply scan_whitespace_split; [reflexivity | exists []; reflexivity | now left].
Qed.

End WhitespaceSplit.

(** C9: take a grammar whose reserved strings are single characters, a
    numeric classification that accepts no pair ending in whitespace,
    and a text in which no comment delimiter of the grammar occurs and in
    which two neighbouring non-whitespace characters are never cut apart
    by a reserved character (they form a numeric pair, or neither is
    reserved).  When the characters of the text that belong to a
    multi-character pair of the table are not whitespace and meet a
    table of [/* */] pairs only, as with the base and the ODL grammar,
    the tokens are exactly the maximal runs of non-whitespace
    characters: [list(lexer(s, g))] is the split of the text on
    whitespace, a lone [/] or [*] staying in its word, and no token is
    empty or contains whitespace.  Lexing ["This is a test."] with the
    base grammar gives ["This"], ["is"], ["a"], ["test."], and
    ["a/b c"] gives ["a/b"], ["c"].  With the table of [Omnigrammar],
    which adds the pair of [#] and the newline, the same text ["a/b c"],
    in which no comment delimiter occurs and whose split is ["a/b"],
    ["c"], gives no token: the scan raises [NotImplementedError] at the
    [/], whatever the numeric classification. *)
Theorem C9_whitespace_separated :
  (forall (is_numeric : Grammar -> str -> bool) (g : Grammar) (s : str),
      (forall r, In r (reserved_characters g) -> length r = 1) ->
      (forall i c n,
          nth_error s i = Some c -> nth_error s (S i) = Some n ->
          in_tuple [c] (whitespace g) = false ->
          in_tuple [n] (whitespace g) = false ->
          is_numeric g [c; n] = true
          \/ (in_tuple [c] (reserved_characters g) = false
              /\ in_tuple [n] (reserved_characters g) = false)) ->
      (forall c w, in_tuple [w] (whitespace g) = true -> is_numeric g [c; w] = false) ->
      (forall p d pre post,
          In p (comments g) -> d = fst p \/ d = snd p -> s <> pre ++ d ++ post) ->
      (forall c, In c s -> multi_delimiter_char (comments g) c ->
                 in_tuple [c] (whitespace g) = false
                 /\ forall p, In p (comments g) -> p = (py "/*", py "*/")) ->
      tokens is_numeric s g
      = Some (inr (map Some (split_on_whitespace (whitespace g) [] s)))
      /\ Forall (fun t => t <> [] /\ forall c, In c t -> in_tuple [c] (whitespace g) = false)
                (split_on_whitespace (whitespace g) [] s))
  /\ tokens Token.is_numeric (py "This is a test.") grammar
     = Some (inr [Some (py "This"); Some (py "is"); Some (py "a"); Some (py "test.")])
  /\ tokens Token.is_numeric (py "a/b c") grammar
     = Some (inr [Some (py "a/b"); Some (py "c")])
  /\ (forall is_numeric : Grammar -> str -> bool,
        exists m, tokens is_numeric (py "a/b c") Omnigrammar
                  = Some (inl (NotImplementedError m)))
  /\ split_on_whitespace (whitespace Omnigrammar) [] (py "a/b c") = [py "a/b"; py "c"]
  /\ (forall p d pre post,
        In p (comments Omnigrammar) -> d = fst p \/ d = snd p ->
        py "a/b c" <> pre ++ d ++ post).
Proof.
  split; [|split; [exact lex_This_is_a_test|split; [vm_compute; reflexivity|split; [|split]]]].
  - intros is_numeric g s Hsingle Hres Hnum Hcom Hsup. split.
    + apply tokens_whitespace_split; assumption.
    + apply split_clean. intros ? [].
  - intros is_numeric.
    destruct (lexer_raises_iff is_numeric Omnigrammar (py "a/b c")) as (I & N & _).
    assert (E : exists e, tokens is_numeric (py "a/b c") Omnigrammar = Some (inl e)).
    { apply I. split.
      - exists (py "#", [LF]). split; [right; now left | discriminate].
      - exists (chr "/"). split; [right; now left | reflexivity]. }
    destruct E as [e He]. destruct (N e He) as [m ->]. now exists m.
  - reflexivity.
  - intros p d pre post Hp Hd. apply substring_none.
    simpl in Hp. destruct Hp as [<- | [<- | []]]; destruct Hd as [-> | ->];
      vm_compute; reflexivity.
Qed.

(** C9 on a text with newlines, tabs, a reserved character that is a
    word of its own, a signed number and words with a [/] and a [*]
    inside, with the base grammar and the numeric classification of the
    tokens. *)
Lemma C9_witness :
  let s := py "This " ++ [LF] ++ py " is  a" ++ [TAB] ++ py "test. = +79 a/b 2*3" in
  tokens Token.is_numeric s grammar
  = Some (inr (map Some (split_on_whitespace (whitespace grammar) [] s)))
  /\ Forall (fun t => t <> [] /\ forall c, In c t -> in_tuple [c] (whitespace grammar) = false)
            (split_on_whitespace (whitespace grammar) [] s).
Proof.
  intros s.
  apply (proj1 C9_whitespace_separated Token.is_numeric grammar s).
  - intros r Hr. simpl in Hr.
    repeat (destruct Hr as [<- | Hr]; [reflexivity|]). contradiction.
  - intros i c n Hc Hn Wc Wn.
    pose proof (adjacent_nth
      (fun c n => in_tuple [c] (whitespace grammar)
                  || in_tuple [n] (whitespace grammar)
                  || Token.is_numeric grammar [c; n]
                  || (negb (in_tuple [c] (reserved_characters grammar))
                      && negb (in_tuple [n] (reserved_characters grammar))))
      s ltac:(vm_compute; reflexivity) i c n Hc Hn) as H.
    cbv beta in H. rewrite Wc, Wn in H. cbn [orb] in H.
    apply orb_prop in H as [H | H]; [now left | right].
    apply andb_prop in H as [H1 H2].
    now rewrite negb_true_iff in H1, H2.
  - exact is_numeric_whitespace.
  - intros p d pre post [<- | []] [-> | ->]; apply substring_none;
      vm_compute; reflexivity.
  - intros c _ (p & [<- | []] & _ & Hc). split.
    + simpl in Hc. decompose [or] Hc; try contradiction; subst c; reflexivity.
    + intros q [<- | []]. reflexivity.
Defined.

(* ================================================================== *)
(** ** Comment tables the multi-character matcher rejects *)

(** C4, as the code has it.  Creating the lexer runs nothing, whatever
    the comment table.  With an empty table every text is lexed to a
    list of tokens: no error is ever raised.  With a table that holds a
    multi-character pair (a pair whose opener is not exactly one
    character) other than [('/*', '*/')], the error depends on the text
    and is raised during the scan: the loop raises
    [NotImplementedError] at a character that occurs in the opener or
    closer of a multi-character pair of the table, so
    [list(lexer(s, g))] raises when the text holds such a character,
    and a text without one is lexed to a list of tokens. *)
Theorem C4_comment_table_checked_while_scanning :
  (forall (s : str) (g : Grammar), f_loc (gi_frame (lexer s g)) = NotStarted)
  /\ (forall (is_numeric : Grammar -> str -> bool) (s : str) (g : Grammar),
        comments g = [] ->
        exists l, tokens is_numeric s g = Some (inr l))
  /\ (forall (is_numeric : Grammar -> str -> bool) (s : str) (g : Grammar)
             (p : str * str),
        In p (comments g) -> length (fst p) <> 1 -> p <> (py "/*", py "*/") ->
        ((exists c, In c s /\ multi_delimiter_char (comments g) c) ->
         exists m, tokens is_numeric s g = Some (inl (NotImplementedError m)))
        /\ ((forall c, In c s -> ~ multi_delimiter_char (comments g) c) ->
            exists l, tokens is_numeric s g = Some (inr l))
        /\ (forall (c : char) (todo : str) (i : nat) (lexeme : str) (ic : bool)
                   (ec : option str),
              multi_delimiter_char (comments g) c ->
              exists m, run is_numeric s g (c :: todo) i lexeme ic ec
                        = (Raised (NotImplementedError m),
                           mkFrame Finished i lexeme ic ec))).
Proof.
  split; [reflexivity|]. split.
  - intros is_numeric s g H. rewrite tokens_scan.
    destruct (scan_returns is_numeric s g s 0 [] false None) as [l ->].
    + intros c _. unfold c_info. rewrite H. reflexivity.
    + exists l. reflexivity.
  - intros is_numeric s g p Hin Hlen Hp. split; [|split].
    + intros (c & Hc & Hm). rewrite tokens_scan.
      destruct (scan_unsupported is_numeric s g p s Hin Hp 0 [] false None) as [m ->].
      * exists c. split; [exact Hc | now apply multi_chars_spec].
      * now exists m.
    + intros H. rewrite tokens_scan.
      destruct (scan_returns is_numeric s g s 0 [] false None) as [l ->].
      * intros c Hc. apply multi_chars_none. now apply H.
      * exists l. reflexivity.
    + intros c todo i lexeme ic ec Hm. apply multi_chars_spec in Hm.
      destruct (multichar_unsupported [c] (_prev_char s i) (_next_char s i)
                  lexeme ic ec (comments g) p Hin Hp) as [m Em].
      exists m. cbn [run]. unfold loop_body, lex_char, lex_comment.
      rewrite (multi_chars_in_chars g [c] Hm), orb_true_r, Hm, Em. reflexivity.
Qed.

(** C4 at concrete inputs: with the unsupported pair [<!-- -->] the
    text ["a b"], which has none of its characters, is lexed without
    error. *)
Lemma C4_witness :
  exists l,
    tokens Token.is_numeric (py "a b") (set_comments grammar [(py "<!--", py "-->")])
    = Some (inr l).
Proof.
  apply (proj1 (proj2 (proj2 (proj2 C4_comment_table_checked_while_scanning)
                         Token.is_numeric (py "a b")
                         (set_comments grammar [(py "<!--", py "-->")])
                         (py "<!--", py "-->")
                         (or_introl eq_refl) ltac:(discriminate) ltac:(discriminate)))).
  intros c Hc. apply multi_chars_none. simpl in Hc.
  decompose [or] Hc; try contradiction; subst c; vm_compute; reflexivity.
Defined.

(** C4, counterexample to the claim as stated: with an empty comment
    table the first [next] yields a token and the whole text is lexed,
    no error being raised at all; with the unsupported pair [<!-- -->]
    the text ["a"] is lexed without error, and on ["a -"] the token
    ["a"] is yielded before the second [next] raises
    [NotImplementedError].  So the error is neither raised at
    construction nor independent of the text. *)
Lemma C4_counterexample :
  fst (next Token.is_numeric (lexer (py "a") (set_comments grammar [])))
    = Yielded (Some (py "a"))
  /\ tokens Token.is_numeric (py "a /* b */") (set_comments grammar [])
     = Some (inr [Some (py "a"); Some (py "/*"); Some (py "b"); Some (py "*/")])
  /\ tokens Token.is_numeric (py "a") (set_comments grammar [(py "<!--", py "-->")])
     = Some (inr [Some (py "a")])
  /\ exists m,
       play Token.is_numeric
         (lexer (py "a -") (set_comments grammar [(py "<!--", py "-->")]))
         [Send None; Send None]
       = [Yielded (Some (py "a")); Raised (NotImplementedError m)].
Proof.
  repeat split; try (vm_compute; reflexivity).
  eexists. vm_compute. reflexivity.
Qed.

(* ================================================================== *)
(** ** Single-character comments *)

Section SingleComment.

Variable is_numeric : Grammar -> str -> bool.
Variable g : Grammar.
Variable o c : char.

(** The table maps the opener [o] to the closer [c]. *)
Hypothesis opener : dict_get (single_comments (c_info g)) [o] = Some [c].

(** Inside such a comment a character outside the multi-character
    delimiters is appended; the closer ends the comment. *)
Lemma lex_char_single_inside (x : char) (prev next : option str) (lexeme : str) :
  in_tuple [x] (multi_chars (c_info g)) = false ->
  lex_char [x] prev next lexeme true (Some [c]) g (c_info g)
  = inr (if N.eqb x c then (lexeme ++ [x], false, None)
         else (lexeme ++ [x], true, Some [c])).
Proof.
  intros Hm. unfold lex_char, lex_comment. cbn [orb]. rewrite Hm.
  unfold lex_singlechar_comments, eqb_opt. cbn [eqb].
  rewrite andb_true_r. destruct (N.eqb x c); reflexivity.
Qed.

Lemma lex_char_single_open (prev next : option str) (lexeme : str) (ec : option str) :
  in_tuple [o] (multi_chars (c_info g)) = false ->
  lex_char [o] prev next lexeme false ec g (c_info g)
  = inr (lexeme ++ [o], true, Some [c]).
Proof.
  intros Hm. unfold lex_char, lex_comment. rewrite Hm.
  replace (in_tuple [o] (chars (c_info g))) with true.
  - cbn [orb]. unfold lex_singlechar_comments. now rewrite opener.
  - symmetry. apply in_tuple_In.
    unfold c_info, _prepare_comment_tuples in *.
    destruct (prepare_loop (comments g) [] []) as [single multi]. simpl in *.
    apply in_or_app. left. apply dict_get_keys. now exists [c].
Qed.

Variable s : str.

(** A stretch of the comment that is not the end of the text. *)
Lemma scan_single_body (body : str) :
  forall (pre rest lexeme : str),
    s = pre ++ body ++ rest -> rest <> [] ->
    (forall x, In x body ->
               x <> c /\ in_tuple [x] (multi_chars (c_info g)) = false) ->
    scan is_numeric s g (body ++ rest) (length pre) lexeme true (Some [c])
    = scan is_numeric s g rest (length pre + length body) (lexeme ++ body)
        true (Some [c]).
Proof.
  induction body as [|x body IH]; intros pre rest lexeme Hs Hrest Hclean.
  - simpl. now rewrite Nat.add_0_r, app_nil_r.
  - assert (Hskip : skipn (length pre) s = x :: body ++ rest)
      by (rewrite Hs; apply skipn_length_app).
    cbn [app scan]. unfold loop_body.
    destruct (Hclean x (or_introl eq_refl)) as [H1 H2].
    rewrite (lex_char_single_inside x _ _ lexeme H2).
    apply N.eqb_neq in H1. rewrite H1.
    rewrite eqb_nil_app. cbn [negb].
    rewrite (next_char_todo _ _ _ _ Hskip).
    destruct (body ++ rest) as [|n l] eqn:E.
    { destruct body; [simpl in E; contradiction | discriminate]. }
    cbn [orb]. rewrite <- E.
    replace (S (length pre)) with (length (pre ++ [x]))
      by (rewrite length_app; simpl; lia).
    rewrite (IH (pre ++ [x]) rest (lexeme ++ [x])).
    + rewrite length_app, <- !app_assoc. simpl. f_equal. lia.
    + rewrite <- app_assoc. exact Hs.
    + exact Hrest.
    + intros y Hy. apply Hclean. now right.
Qed.

End SingleComment.

Lemma lex_single_comment_text (is_numeric : Grammar -> str -> bool) (g : Grammar)
    (o c : char) (mid : str) (f : char) :
  dict_get (single_comments (c_info g)) [o] = Some [c] ->
  in_tuple [o] (multi_chars (c_info g)) = false ->
  (forall x, In x mid -> x <> c /\ in_tuple [x] (multi_chars (c_info g)) = false) ->
  in_tuple [f] (multi_chars (c_info g)) = false ->
  tokens is_numeric (o :: mid ++ [f]) g = Some (inr [Some (o :: mid ++ [f])]).
Proof.
  intros Hopen Ho Hmid Hf. rewrite tokens_scan. f_equal.
  set (s := o :: mid ++ [f]).
  unfold s at 2. cbn [scan]. unfold loop_body.
  rewrite (lex_char_single_open g o c Hopen _ _ [] None Ho).
  cbn [app eqb negb orb].
  assert (N0 : exists n, _next_char s 0 = Some n).
  { unfold s. destruct mid; eexists; reflexivity. }
  destruct N0 as [n ->].
  change 1 with (length [o]).
  rewrite (scan_single_body is_numeric g c s mid [o] [f] [o] eq_refl
             ltac:(discriminate) Hmid).
  assert (Hskip : skipn (length [o] + length mid) s = [f]).
  { replace (length [o] + length mid) with (length ([o] ++ mid))
      by (now rewrite length_app).
    unfold s. change (o :: mid ++ [f]) with ([o] ++ mid ++ [f]).
    rewrite app_assoc. apply skipn_length_app. }
  cbn [scan]. unfold loop_body.
  rewrite (lex_char_single_inside g c f _ _ ([o] ++ mid) Hf).
  rewrite (next_char_todo _ _ _ _ Hskip).
  destruct (N.eqb f c); rewrite eqb_nil_app; cbn [negb];
    unfold s; now rewrite <- app_assoc.
Qed.

(** A comment opened by [o] and closed by [c], stated with the tables of
    [_prepare_comment_tuples]. *)
Lemma lex_single_comment_tokens
    (is_numeric : Grammar -> str -> bool) (g : Grammar) (o c : char) (body : str) :
  dict_get (single_comments (c_info g)) [o] = Some [c] ->
  (forall x, In x (o :: c :: body) -> in_tuple [x] (multi_chars (c_info g)) = false) ->
  ~ In c body ->
  tokens is_numeric ([o] ++ body ++ [c]) g = Some (inr [Some ([o] ++ body ++ [c])])
  /\ tokens is_numeric ([o] ++ body) g = Some (inr [Some ([o] ++ body)]).
Proof.
  intros Hopen Hm Hc.
  assert (Hbody : forall x, In x body ->
            x <> c /\ in_tuple [x] (multi_chars (c_info g)) = false).
  { intros x Hx. split; [intros ->; contradiction|].
    apply Hm. right. now right. }
  assert (Ho : in_tuple [o] (multi_chars (c_info g)) = false) by (apply Hm; now left).
  split.
  - apply (lex_single_comment_text is_numeric g o c body c); try assumption.
    apply Hm. right. now left.
  - destruct (list_eq_dec N.eq_dec body []) as [-> | Hne].
    + rewrite tokens_scan. cbn [app scan]. unfold loop_body.
      rewrite (lex_char_single_open g o c Hopen _ _ [] None Ho). reflexivity.
    + destruct (exists_last Hne) as (mid & f & ->).
      apply (lex_single_comment_text is_numeric g o c mid f); try assumption.
      * intros x Hx. apply Hbody. apply in_or_app. now left.
      * apply Hm. right. right. apply in_or_app. right. now left.
Qed.

(** X16: A single-character comment is one token from its opener on.  Let
    [(o, c)] be the last pair of the comment table with the
    one-character opener [o], with a closer [c] of one character, let
    none of [o], [c] and the characters of the body occur in the opener
    or closer of a pair of the table whose opener is not exactly one
    character, and let the body not contain [c].  Then the text
    [o body c] is lexed to the single token [o body c], closer included,
    and the unterminated text [o body] to the single token [o body],
    whatever the numeric classification, the whitespace and the reserved
    characters inside. *)
Theorem single_char_comment_is_one_token
    (is_numeric : Grammar -> str -> bool) (g : Grammar) (o c : char) (body : str) :
  (exists before after,
      comments g = before ++ ([o], [c]) :: after
      /\ forall q, In q after -> fst q <> [o]) ->
  (forall x, In x (o :: c :: body) -> ~ multi_delimiter_char (comments g) x) ->
  ~ In c body ->
  tokens is_numeric ([o] ++ body ++ [c]) g = Some (inr [Some ([o] ++ body ++ [c])])
  /\ tokens is_numeric ([o] ++ body) g = Some (inr [Some ([o] ++ body)]).
Proof.
  intros (before & after & Etab & Hlast) Hm Hc.
  apply lex_single_comment_tokens.
  - unfold c_info, _prepare_comment_tuples.
    pose proof (prepare_loop_single (comments g) [] [] [o] [c]) as S.
    destruct (prepare_loop (comments g) [] []) as [single multi]. simpl in *.
    apply S. left. exists before, after. repeat split; assumption.
  - intros x Hx. apply multi_chars_none. now apply Hm.
  - exact Hc.
Qed.

Lemma single_char_comment_is_one_token_witness :
  let body := py " a = (1, 2) comment" in
  tokens Token.is_numeric ([chr "#"] ++ body ++ [LF]) Omnigrammar
    = Some (inr [Some ([chr "#"] ++ body ++ [LF])])
  /\ tokens Token.is_numeric ([chr "#"] ++ body) Omnigrammar
     = Some (inr [Some ([chr "#"] ++ body)]).
Proof.
  intros body. apply single_char_comment_is_one_token.
  - exists [(py "/*", py "*/")], []. split; [reflexivity | intros q []].
  - intros x Hx. apply multi_chars_none. apply negb_true_iff. revert x Hx.
    apply forallb_forall. vm_compute. reflexivity.
  - intros H. revert H. apply (occurs_none [[LF]] body (eq_refl) [LF] LF);
      now left.
Defined.

(* ================================================================== *)
(** ** Repeated push-back *)

Lemma push_back_once (is_numeric : Grammar -> str -> bool) (s : str) (g : Grammar)
    (loc : location) (i : nat) (lexeme : str) (ic : bool) (ec : option str)
    (v : str) :
  loc = AtToken \/ loc = AtBack ->
  step is_numeric (Send (Some v)) (mkGenerator s g (mkFrame loc i lexeme ic ec))
  = (Yielded None, mkGenerator s g (mkFrame (AtNone v) i lexeme ic ec))
  /\ next is_numeric (mkGenerator s g (mkFrame AtBack i lexeme ic ec))
     = next is_numeric (mkGenerator s g (mkFrame loc i lexeme ic ec)).
Proof. intros [-> | ->]; split; reflexivity. Qed.

(** X17: After a token, or after a value that was pushed back and pulled
    again, any number of values can be pushed back one after the other:
    each [send] returns [None], the following [next] returns the value
    sent, and after the last of them [next] resumes the scan exactly as
    it would have without any push-back. *)
Theorem push_back_repeats (is_numeric : Grammar -> str -> bool) (vs : list str) :
  forall gen : generator,
    f_loc (gi_frame gen) = AtToken \/ f_loc (gi_frame gen) = AtBack ->
    play is_numeric gen (push_backs vs)
    = flat_map (fun v => [Yielded None; Yielded (Some v)]) vs
    /\ next is_numeric (after is_numeric gen (push_backs vs)) = next is_numeric gen.
Proof.
  induction vs as [|v vs IH]; intros [s g [loc i lexeme ic ec]] Hloc; simpl in Hloc.
  - split; reflexivity.
  - destruct (push_back_once is_numeric s g loc i lexeme ic ec v Hloc) as [E1 E2].
    destruct (IH (mkGenerator s g (mkFrame AtBack i lexeme ic ec))
                 (or_intror eq_refl)) as [P N].
    cbn [push_backs flat_map app play after]. rewrite E1. cbn [snd].
    change (step is_numeric (Send None)
              (mkGenerator s g (mkFrame (AtNone v) i lexeme ic ec)))
      with (Yielded (Some v), mkGenerator s g (mkFrame AtBack i lexeme ic ec)).
    cbn [snd]. fold (push_backs vs). rewrite P, N. split; [reflexivity | exact E2].
Qed.

Lemma push_back_repeats_witness :
  let gen := snd (next Token.is_numeric (lexer (py "One Two") grammar)) in
  play Token.is_numeric gen (push_backs [py "a"; py "b"; py "c"])
  = flat_map (fun v => [Yielded None; Yielded (Some v)]) [py "a"; py "b"; py "c"]
  /\ next Token.is_numeric (after Token.is_numeric gen (push_backs [py "a"; py "b"; py "c"]))
     = next Token.is_numeric gen.
Proof.
  intros gen. apply push_back_repeats. left. vm_compute. reflexivity.
Defined.

(** X18: A value sent while a pushed-back value is still waiting to be pulled
    is not stacked: that [send] returns the waiting value, the value it
    carried is dropped, and the scan then goes on as if only the first
    value had been pushed back. *)
Theorem second_send_is_dropped (is_numeric : Grammar -> str -> bool)
    (gen : generator) (v w : str) :
  f_loc (gi_frame gen) = AtToken \/ f_loc (gi_frame gen) = AtBack ->
  exists gen1 gen2,
    send is_numeric gen (Some v) = (Yielded None, gen1)
    /\ send is_numeric gen1 (Some w) = (Yielded (Some v), gen2)
    /\ next is_numeric gen2 = next is_numeric gen
    /\ forall fuel, to_list is_numeric fuel gen2 = to_list is_numeric fuel gen.
Proof.
  destruct gen as [s g [loc i lexeme ic ec]]. simpl. intros Hloc.
  destruct (push_back_once is_numeric s g loc i lexeme ic ec v Hloc) as [E1 E2].
  exists (mkGenerator s g (mkFrame (AtNone v) i lexeme ic ec)),
         (mkGenerator s g (mkFrame AtBack i lexeme ic ec)).
  split; [exact E1 | split; [reflexivity | split; [exact E2|]]].
  intros [|fuel]; [reflexivity|]. cbn [to_list]. now rewrite E2.
Qed.

Lemma second_send_is_dropped_witness :
  let gen := snd (next Token.is_numeric (lexer (py "One Two") grammar)) in
  exists gen1 gen2,
    send Token.is_numeric gen (Some (py "a")) = (Yielded None, gen1)
    /\ send Token.is_numeric gen1 (Some (py "b")) = (Yielded (Some (py "a")), gen2)
    /\ next Token.is_numeric gen2 = next Token.is_numeric gen
    /\ forall fuel, to_list Token.is_numeric fuel gen2 = to_list Token.is_numeric fuel gen.
Proof.
  intros gen. apply second_send_is_dropped. left. vm_compute. reflexivity.
Defined.

(* ================================================================== *)
(** ** What one character does to the lexeme *)

(** X19: Whatever the grammar and the state, when [lex_char] returns, the new
    lexeme is the old one, unchanged or followed by the character itself
    or by one of the delimiters [/*] and [*/]: nothing already collected
    is ever removed or changed.  A character that is neither whitespace
    nor known to the comment machinery is always appended outside a
    comment, and whitespace outside a comment leaves the state as it
    is. *)
Theorem lex_char_extends (ch : str) (prev next : option str) (lexeme : str)
    (ic : bool) (ec : option str) (g : Grammar) :
  (forall st,
      lex_char ch prev next lexeme ic ec g (c_info g) = inr st ->
      exists suffix,
        fst (fst st) = lexeme ++ suffix
        /\ (suffix = [] \/ suffix = ch \/ suffix = py "/*" \/ suffix = py "*/"))
  /\ (ic = false -> in_tuple ch (chars (c_info g)) = false ->
      lex_char ch prev next lexeme ic ec g (c_info g)
      = inr (if in_tuple ch (whitespace g) then lexeme else lexeme ++ ch, false, ec)).
Proof.
  split.
  - intros st. unfold lex_char, lex_comment, lex_multichar_comments,
      lex_singlechar_comments.
    repeat match goal with
      | |- context [if ?b then _ else _] => destruct b eqn:?
      | |- context [match dict_get ?d ?k with _ => _ end] => destruct (dict_get d k)
      end;
      intros H; try discriminate H; injection H as <-; cbn [fst];
      try (exists []; split; [now rewrite app_nil_r | now left]);
      try (exists ch; split; [reflexivity | right; now left]);
      try (exists (py "/*"); split; [reflexivity | right; right; now left]);
      try (exists (py "*/"); split; [reflexivity | right; right; now right]);
      match goal with
      | E : eqb ch ?x = true |- _ =>
          apply eqb_eq in E; exists ch; split; [now rewrite E | right; now left]
      end.
  - intros -> Hc. unfold lex_char. rewrite Hc. cbn [orb].
    destruct (in_tuple ch (whitespace g)); reflexivity.
Qed.

Lemma lex_char_extends_witness :
  lex_char (py "x") None None (py "ab") false None grammar (c_info grammar)
  = inr (if in_tuple (py "x") (whitespace grammar) then py "ab" else py "ab" ++ py "x",
         false, None).
Proof.
  apply (proj2 (lex_char_extends (py "x") None None (py "ab") false None grammar));
    reflexivity.
Defined.

(* ================================================================== *)
(** ** Neighbouring characters *)

(** X20: For an index inside the text, [_prev_char] is [None] exactly at the
    first index and [_next_char] is [None] exactly at the last one;
    otherwise they are the characters at the indices before and after,
    so the next character of an index that is not the last is the
    previous character of the index two further on. *)
Theorem neighbours_in_text (s : str) (i : nat) :
  i < length s ->
  (_prev_char s i = None <-> i = 0)
  /\ (_next_char s i = None <-> S i = length s)
  /\ (forall c, _prev_char s (S i) = Some [c] <-> nth_error s i = Some c)
  /\ (forall c, _next_char s i = Some [c] <-> nth_error s (S i) = Some c)
  /\ (S i < length s -> _next_char s i = _prev_char s (S (S i))).
Proof.
  intros Hi. unfold _next_char. rewrite Nat.add_1_r. cbn [_prev_char].
  assert (Map : forall (o : option char) c,
            option_map (fun c => [c]) o = Some [c] <-> o = Some c).
  { intros [x|] c; simpl; split; intros H; try discriminate; congruence. }
  split; [|split; [|split; [|split]]].
  - destruct i as [|i]; [split; reflexivity|].
    cbn [_prev_char]. split; [|discriminate].
    destruct (nth_error s i) eqn:E; [discriminate|].
    apply nth_error_None in E. lia.
  - destruct (nth_error s (S i)) eqn:E; simpl.
    + split; [discriminate|]. intros H.
      assert (nth_error s (S i) <> None) by congruence.
      apply nth_error_Some in H0. lia.
    + apply nth_error_None in E. split; [lia | reflexivity].
  - intros c. apply Map.
  - intros c. apply Map.
  - reflexivity.
Qed.

Lemma neighbours_in_text_witness :
  (_prev_char (py "foo") 2 = None <-> 2 = 0)
  /\ (_next_char (py "foo") 2 = None <-> 3 = length (py "foo"))
  /\ (forall c, _prev_char (py "foo") 3 = Some [c] <-> nth_error (py "foo") 2 = Some c)
  /\ (forall c, _next_char (py "foo") 2 = Some [c] <-> nth_error (py "foo") 3 = Some c)
  /\ (3 < length (py "foo") -> _next_char (py "foo") 2 = _prev_char (py "foo") 4).
Proof.
  apply (neighbours_in_text (py "foo") 2). simpl. lia.
Defined.

(* ================================================================== *)
(** ** [char_allowed] on strings that are not one character *)

(** X21: In each of the three grammars [char_allowed] raises [Exception] for
    the empty string and for every string of two or more characters, and
    returns a boolean for every string of one character. *)
Theorem char_allowed_needs_one_character (g : Grammar) (t : str) :
  g = grammar \/ g = ODLgrammar \/ g = Omnigrammar ->
  (length t <> 1 -> char_allowed g t = inl Exception)
  /\ (length t = 1 -> exists b, char_allowed g t = inr b).
Proof.
  intros Hg. split.
  - intros Hl. apply Nat.eqb_neq in Hl.
    destruct Hg as [-> | [-> | ->]]; simpl;
      unfold grammar_char_allowed, ODLgrammar_char_allowed; now rewrite Hl.
  - intros Hl. destruct t as [|c [|d t]]; try discriminate Hl.
    destruct Hg as [-> | [-> | ->]].
    + rewrite base_char_allowed_ranges. eexists. reflexivity.
    + rewrite ODL_char_allowed_ascii. eexists. reflexivity.
    + change (char_allowed Omnigrammar) with (char_allowed grammar).
      rewrite base_char_allowed_ranges. eexists. reflexivity.
Qed.

Lemma char_allowed_needs_one_character_witness :
  (length (py "ab") <> 1 -> char_allowed ODLgrammar (py "ab") = inl Exception)
  /\ (length (py "ab") = 1 -> exists b, char_allowed ODLgrammar (py "ab") = inr b).
Proof.
  apply char_allowed_needs_one_character. right. left. reflexivity.
Defined.

(* ================================================================== *)
(** ** Lexical errors with an offset inside the text *)

(** X2: When a [ValueError] reaches the [except] clause while the generator
    is suspended and the lexeme is not longer than the index, the
    [LexerError] raised carries the text, the offset [i - len(lexeme)],
    the line that is one more than the number of newlines before the
    offset and the column counted from the last newline before it, both
    at least 1.  Any exception that is no [ValueError] leaves the
    generator unchanged. *)
Theorem lexical_error_position (is_numeric : Grammar -> str -> bool)
    (gen : generator) (e : exn) :
  f_loc (gi_frame gen) <> NotStarted -> f_loc (gi_frame gen) <> Finished ->
  length (f_lexeme (gi_frame gen)) <= f_idx (gi_frame gen) ->
  (is_ValueError e = true ->
   exists err,
     fst (throw is_numeric gen e) = Raised (LexerError_ err)
     /\ doc err = gi_s gen
     /\ pos err = Z.of_nat (f_idx (gi_frame gen) - length (f_lexeme (gi_frame gen)))
     /\ lineno err
        = (newlines_before (gi_s gen)
             (f_idx (gi_frame gen) - length (f_lexeme (gi_frame gen))) + 1)%Z
     /\ preceding_newline (gi_s gen)
          (f_idx (gi_frame gen) - length (f_lexeme (gi_frame gen)))
          (pos err - colno err)%Z
     /\ (1 <= lineno err)%Z /\ (1 <= colno err)%Z)
  /\ (is_ValueError e = false -> fst (throw is_numeric gen e) = Raised e).
Proof.
  intros H1 H2 Hle. split.
  - intros He. rewrite (lexer_error_offset is_numeric gen e H1 H2 He).
    replace (Z.of_nat (f_idx (gi_frame gen)) - Z.of_nat (length (f_lexeme (gi_frame gen))))%Z
      with (Z.of_nat (f_idx (gi_frame gen) - length (f_lexeme (gi_frame gen)))) by lia.
    eexists. split; [reflexivity|].
    pose proof (LexerError_position (exn_str e) (gi_s gen)
                  (f_idx (gi_frame gen) - length (f_lexeme (gi_frame gen)))) as P.
    cbv zeta in P. destruct P as (A & B & C & D & E & F & _).
    exact (conj A (conj B (conj C (conj D (conj E F))))).
  - intros He. destruct gen as [s g [loc i lexeme ic ec]]. simpl in *.
    unfold throw, step, resume, except. simpl.
    destruct loc; try contradiction; rewrite He; reflexivity.
Qed.

Lemma lexical_error_position_witness :
  let gen := snd (next Token.is_numeric (lexer (py "ab" ++ [LF] ++ py " cd e") grammar)) in
  let gen := snd (next Token.is_numeric gen) in
  (is_ValueError (ValueError (py "bad")) = true ->
   exists err,
     fst (throw Token.is_numeric gen (ValueError (py "bad"))) = Raised (LexerError_ err)
     /\ doc err = gi_s gen
     /\ pos err = Z.of_nat (f_idx (gi_frame gen) - length (f_lexeme (gi_frame gen)))
     /\ lineno err
        = (newlines_before (gi_s gen)
             (f_idx (gi_frame gen) - length (f_lexeme (gi_frame gen))) + 1)%Z
     /\ preceding_newline (gi_s gen)
          (f_idx (gi_frame gen) - length (f_lexeme (gi_frame gen)))
          (pos err - colno err)%Z
     /\ (1 <= lineno err)%Z /\ (1 <= colno err)%Z)
  /\ (is_ValueError (ValueError (py "bad")) = false ->
      fst (throw Token.is_numeric gen (ValueError (py "bad")))
      = Raised (ValueError (py "bad"))).
Proof.
  intros gen0 gen. apply lexical_error_position.
  - vm_compute. discriminate.
  - vm_compute. discriminate.
  - vm_compute. lia.
Defined.

(* ================================================================== *)
(** ** Further facts about [list(lexer(s, g))] *)

(** X15: with the base grammar a text that is one comment, whose inside
    has neither [/] nor [*], is lexed to exactly one token, the comment
    with both delimiters as it stands, whatever is inside (whitespace,
    reserved characters, digits) and whatever the numeric
    classification. *)
Theorem clean_comment_is_one_token (is_numeric : Grammar -> str -> bool) (body : str) :
  (forall c, In c body -> c <> chr "/" /\ c <> chr "*") ->
  tokens is_numeric (py "/*" ++ body ++ py "*/") grammar
  = Some (inr [Some (py "/*" ++ body ++ py "*/")]).
Proof. exact (lex_clean_comment is_numeric body). Qed.

Lemma clean_comment_is_one_token_witness :
  tokens Token.is_numeric (py "/*" ++ py " a = (1, 2); # comment " ++ py "*/") grammar
  = Some (inr [Some (py "/*" ++ py " a = (1, 2); # comment " ++ py "*/")]).
Proof.
  apply clean_comment_is_one_token.
  intros c Hc. simpl in Hc.
  repeat (destruct Hc as [<- | Hc]; [split; discriminate|]). contradiction.
Defined.

Lemma scan_length (is_numeric : Grammar -> str -> bool) (s : str) (g : Grammar)
    (todo : str) :
  forall (i : nat) (lexeme : str) (ic : bool) (ec : option str) (l : list (option str)),
    scan is_numeric s g todo i lexeme ic ec = inr l -> length l <= length todo.
Proof.
  induction todo as [|c todo IH]; intros i lexeme ic ec l H; cbn [scan] in H.
  - injection H as <-. simpl. lia.
  - destruct (loop_body is_numeric s g [c] i lexeme ic ec)
      as [e | [[l0 ic'] ec'] | [[l0 ic'] ec']].
    + discriminate.
    + destruct (scan is_numeric s g todo (S i) [] ic' ec') as [e | l'] eqn:E;
        [discriminate|].
      injection H as <-. apply IH in E. simpl. lia.
    + apply IH in H. simpl. lia.
Qed.

(** X23: The lexer yields at most one token for each character of the text:
    when [list(lexer(s, g))] is a list, it is not longer than the text,
    so the empty text gives no token. *)
Theorem tokens_at_most_one_per_character (is_numeric : Grammar -> str -> bool)
    (s : str) (g : Grammar) (l : list (option str)) :
  tokens is_numeric s g = Some (inr l) -> length l <= length s.
Proof.
  rewrite tokens_scan. intros H. injection H as H.
  exact (scan_length is_numeric s g s 0 [] false None l H).
Qed.

Lemma tokens_at_most_one_per_character_witness :
  length [Some (py "Te"); Some (py "="); Some (py "st")] <= length (py "Te=st").
Proof.
  apply (tokens_at_most_one_per_character Token.is_numeric (py "Te=st") grammar).
  vm_compute. reflexivity.
Defined.

(* ================================================================== *)
(** ** The patterns and the error class, summed up *)

(** X1: for every message, text and non-negative offset, the line of a
    [LexerError] is one more than the number of newlines before the
    offset, its column is the offset minus the index of the last newline
    before it (minus [-1] when there is none), both are at least 1, and
    rebuilding the error from what [__reduce__] returns gives the same
    error, message included. *)
Theorem LexerError_line_and_column (m d : str) (p : nat) :
  doc (LexerError__init__ m d (Z.of_nat p)) = d
  /\ pos (LexerError__init__ m d (Z.of_nat p)) = Z.of_nat p
  /\ lineno (LexerError__init__ m d (Z.of_nat p)) = (newlines_before d p + 1)%Z
  /\ preceding_newline d p
       (pos (LexerError__init__ m d (Z.of_nat p))
        - colno (LexerError__init__ m d (Z.of_nat p)))%Z
  /\ (1 <= lineno (LexerError__init__ m d (Z.of_nat p)))%Z
  /\ (1 <= colno (LexerError__init__ m d (Z.of_nat p)))%Z
  /\ LexerError_rebuild (LexerError__reduce__ (LexerError__init__ m d (Z.of_nat p)))
     = LexerError__init__ m d (Z.of_nat p).
Proof. exact (LexerError_position m d p). Qed.

(** X3: [binary_re] fully matches exactly the strings [[sign]2#digits#]
    with one or more digits [0] or [1], and [octal_re] exactly the
    strings [[sign]8#digits#] with one or more digits from [0] to [7]. *)
Theorem binary_octal_re_language (t : str) :
  (fullmatch (binary_re grammar) t = true <-> radix_form (py "2") binary_digit t)
  /\ (fullmatch (octal_re grammar) t = true <-> radix_form (py "8") octal_digit t).
Proof. exact (binary_octal_re_spec t). Qed.

(** X4: [hex_re] fully matches exactly the strings [[sign]16#digits#]
    with one or more characters of the class [[0-9|A-F|a-f]], that is
    hexadecimal digits and vertical bars. *)
Theorem hex_re_language (t : str) :
  fullmatch (hex_re grammar) t = true <-> radix_form (py "16") hex_class t.
Proof. exact (hex_re_spec t). Qed.

(** X5: [grammar.nondecimal_pre_re] matches at the start of exactly the
    strings that begin with an optional sign, a radix 2, 8 or 16 and an
    octothorpe. *)
Theorem nondecimal_pre_re_language (t : str) :
  match_ (nondecimal_pre_re grammar) t = true
  <-> exists sign radix rest,
        is_sign sign /\ (radix = py "2" \/ radix = py "8" \/ radix = py "16")
        /\ t = sign ++ radix ++ py "#" ++ rest.
Proof. exact (nondecimal_pre_re_spec t). Qed.

(** X7: [ODLgrammar.nondecimal_re] fully matches exactly the strings
    [radix#[sign]digits#] with a radix from 2 to 16, the optional sign
    after the first octothorpe and one or more characters of
    [[0-9|A-F|a-f]]; a sign before the radix is not accepted and the
    digits are not checked against the radix. *)
Theorem ODL_nondecimal_re_language (t : str) :
  (exists r, nondecimal_re ODLgrammar = Some r /\ fullmatch r t = true)
  <-> exists sign, is_sign sign /\ signed_radix_form [] sign t.
Proof. exact (ODL_nondecimal_re_spec t). Qed.

(** X8: [Omnigrammar.nondecimal_re] fully matches exactly the strings
    [[sign]radix#[sign]digits#] with a radix from 2 to 16 and two
    independent optional signs. *)
Theorem Omni_nondecimal_re_language (t : str) :
  (exists r, nondecimal_re Omnigrammar = Some r /\ fullmatch r t = true)
  <-> exists sign1 sign2,
        is_sign sign1 /\ is_sign sign2 /\ signed_radix_form sign1 sign2 t.
Proof. exact (Omni_nondecimal_re_spec t). Qed.

(** X13: lexing a text raises exactly when the comment table holds a pair
    other than [('/*', '*/')] and the text holds a character of the
    opener or closer of a pair of the table whose opener is not exactly
    one character; the exception is then [NotImplementedError], and in
    every other case [list(lexer(s, g))] is a list of tokens. *)
Theorem lexer_raises_exactly_when (is_numeric : Grammar -> str -> bool) (g : Grammar)
    (s : str) :
  ((exists e, tokens is_numeric s g = Some (inl e))
   <-> (exists p, In p (comments g) /\ p <> (py "/*", py "*/"))
       /\ (exists c, In c s /\ multi_delimiter_char (comments g) c))
  /\ (forall e, tokens is_numeric s g = Some (inl e) ->
                exists m, e = NotImplementedError m)
  /\ ((exists e, tokens is_numeric s g = Some (inl e))
      \/ (exists l, tokens is_numeric s g = Some (inr l))).
Proof.
  destruct (lexer_raises_iff is_numeric g s) as (I & N & T).
  split; [|split; [exact N | exact T]].
  rewrite I. split; intros [Hp (c & Hc & Hm)]; (split; [exact Hp|]); exists c;
    (split; [exact Hc|]); now apply multi_chars_spec.
Qed.

Lemma lexer_raises_exactly_when_witness :
  exists e, tokens Token.is_numeric (py "a/b") Omnigrammar = Some (inl e).
Proof.
  apply (proj1 (lexer_raises_exactly_when Token.is_numeric Omnigrammar (py "a/b"))).
  split.
  - exists (py "#", [LF]). split; [right; now left | discriminate].
  - exists (chr "/"). split; [right; now left|].
    exists (py "/*", py "*/"). split; [now left|].
    split; [discriminate | left; now left].
Defined.
